(** * Call session lifecycle of the call interface

    A shallow embedding of [src/components/call/call-interface.tsx]: the
    [CallInterface] React component (media acquisition, peer-connection
    set-up, track toggles, screen sharing, clean-up, duration timer) and
    the [startCall] handler of the [CallManager] component.

    The browser objects the component works on (media tracks, peer
    connections, the console) live in an explicit store, because the source
    shares them by reference: a track is at once a member of the local
    stream and the track of an RTP sender. *)

From stdpp Require Import gmap strings list fin_maps pretty.
From Stdlib Require Import ZArith Sorted Ascii.

Open Scope Z_scope.
Open Scope nat_scope.

(** ** Browser objects *)

Inductive TrackKind := audio | video.
Inductive ReadyState := live | ended.

#[global] Instance TrackKind_eq_dec : EqDecision TrackKind.
Proof. solve_decision. Defined.
#[global] Instance ReadyState_eq_dec : EqDecision ReadyState.
Proof. solve_decision. Defined.

(** Objects are named by their index in the store: a track by its position
    in [tracks], a peer connection by its position in [connections]. A
    [MediaStream] is the list of tracks its [getTracks()] returns. *)
Abbreviation MediaStream := (list nat).

(** [onended] is the handler property of the track. The only handler the
    source ever assigns is the closure built in [startScreenShare]; such a
    closure is determined by the [localStream] value it closes over, so
    [Some ls] stands for "that closure, made in a render whose [localStream]
    was [ls]" and [None] for "no handler". *)
Record MediaStreamTrack := mkTrack {
  kind : TrackKind;
  enabled : bool;
  readyState : ReadyState;
  onended : option (option MediaStream) }.

(** An RTP sender: its current track, and the arguments of the
    [replaceTrack] calls made on it so far, most recent first. *)
Record RTCRtpSender := mkSender {
  track : option nat;
  replaced : list (option nat) }.

(** A peer connection: its senders, whether [close()] was called, and the
    negotiation state the browser keeps ([localDescription], the remote
    candidates added with [addIceCandidate]). *)
Record RTCPeerConnection := mkPc {
  senders : list RTCRtpSender;
  closed : bool;
  localDescription : option string;
  remoteCandidates : list string }.

Inductive CallType := audioCall | videoCall.

#[global] Instance CallType_eq_dec : EqDecision CallType.
Proof. solve_decision. Defined.

Inductive LogEntry :=
  | LogIceCandidate (c : string)            (* console.log('ICE candidate:', c) *)
  | ErrorMediaDevices (e : string)          (* console.error('Error accessing media devices:', e) *)
  | ErrorScreenShare (e : string)           (* console.error('Error starting screen share:', e) *)
  | LogStartingCall (t : CallType) (participantId : string).
                                            (* console.log(`Starting ${type} call with ${participantId}`) *)

(** Besides its objects, a browser fixes which attributes the
    [RTCPeerConnection] interface has: [pcAttributes] lists the names of the
    accessor properties found on the prototype chain of a connection
    ([connectionState], [onicecandidate], ...). The list differs from one
    browser to the next and is left open. *)
Record Browser := mkBrowser {
  tracks : list MediaStreamTrack;
  connections : list RTCPeerConnection;
  console : list LogEntry;
  pcAttributes : list string }.

(** ** The component *)

(** A roster entry; of its fields the call logic reads [id] only. *)
Record CallParticipant := mkParticipant {
  id : string;
  name : string;
  isSpeaking : bool }.

(** Props of [CallInterface], with the [user] of [useAuth()]: [None] is a
    [null] user, [Some i] a user whose id is [i]. *)
Record Props := mkProps {
  callType : CallType;
  participants : list CallParticipant;
  user : option string }.

(** The [useState] values of the latest render followed by the two [useRef]
    cells the claims are about. The [peerConnections] ref holds a plain
    JavaScript object used as a map: [peerConnections] is the map of its own
    properties, the ones [Object.values] lists, and [peerConnectionsProto]
    is its prototype, [None] for [Object.prototype] (what the literal [{}]
    has) and [Some pc] once an assignment to the key [__proto__] has made
    the connection [pc] the prototype. *)
Record CallInterface := mkCall {
  isAudioEnabled : bool;
  isVideoEnabled : bool;
  isScreenSharing : bool;
  isMuted : bool;
  callDuration : Z;
  localStream : option MediaStream;
  showParticipants : bool;
  peerConnections : gmap string nat;
  peerConnectionsProto : option nat;
  callStartTime : Z }.

(** What the runtime holds for the component: whether it is mounted (its
    buttons are rendered and its [setInterval] timer is armed exactly
    then), whether the [getUserMedia] promise of [initializeMedia] is still
    pending, and the [startScreenShare] calls waiting for [getDisplayMedia],
    oldest first, each with the [localStream] its closure captured. *)
Record Pending := mkPending {
  mounted : bool;
  userMedia : bool;
  displayMedia : list (option MediaStream) }.

Record Page := mkPage {
  call : CallInterface;
  browser : Browser;
  pending : Pending }.

(** *** Field updates *)

Definition set_enabled (b : bool) (t : MediaStreamTrack) : MediaStreamTrack :=
  mkTrack (kind t) b (readyState t) (onended t).
Definition set_readyState (r : ReadyState) (t : MediaStreamTrack) : MediaStreamTrack :=
  mkTrack (kind t) (enabled t) r (onended t).
Definition set_onended (h : option (option MediaStream)) (t : MediaStreamTrack)
  : MediaStreamTrack :=
  mkTrack (kind t) (enabled t) (readyState t) h.

Definition set_senders (l : list RTCRtpSender) (pc : RTCPeerConnection) : RTCPeerConnection :=
  mkPc l (closed pc) (localDescription pc) (remoteCandidates pc).
Definition set_closed (b : bool) (pc : RTCPeerConnection) : RTCPeerConnection :=
  mkPc (senders pc) b (localDescription pc) (remoteCandidates pc).

Definition set_tracks (l : list MediaStreamTrack) (b : Browser) : Browser :=
  mkBrowser l (connections b) (console b) (pcAttributes b).
Definition set_connections (l : list RTCPeerConnection) (b : Browser) : Browser :=
  mkBrowser (tracks b) l (console b) (pcAttributes b).
Definition set_console (l : list LogEntry) (b : Browser) : Browser :=
  mkBrowser (tracks b) (connections b) l (pcAttributes b).

Definition setIsAudioEnabled (v : bool) (c : CallInterface) : CallInterface :=
  mkCall v (isVideoEnabled c) (isScreenSharing c) (isMuted c) (callDuration c)
    (localStream c) (showParticipants c) (peerConnections c)
    (peerConnectionsProto c) (callStartTime c).
Definition setIsVideoEnabled (v : bool) (c : CallInterface) : CallInterface :=
  mkCall (isAudioEnabled c) v (isScreenSharing c) (isMuted c) (callDuration c)
    (localStream c) (showParticipants c) (peerConnections c)
    (peerConnectionsProto c) (callStartTime c).
Definition setIsScreenSharing (v : bool) (c : CallInterface) : CallInterface :=
  mkCall (isAudioEnabled c) (isVideoEnabled c) v (isMuted c) (callDuration c)
    (localStream c) (showParticipants c) (peerConnections c)
    (peerConnectionsProto c) (callStartTime c).
Definition setIsMuted (v : bool) (c : CallInterface) : CallInterface :=
  mkCall (isAudioEnabled c) (isVideoEnabled c) (isScreenSharing c) v (callDuration c)
    (localStream c) (showParticipants c) (peerConnections c)
    (peerConnectionsProto c) (callStartTime c).
Definition setCallDuration (v : Z) (c : CallInterface) : CallInterface :=
  mkCall (isAudioEnabled c) (isVideoEnabled c) (isScreenSharing c) (isMuted c) v
    (localStream c) (showParticipants c) (peerConnections c)
    (peerConnectionsProto c) (callStartTime c).
Definition setLocalStream (v : option MediaStream) (c : CallInterface) : CallInterface :=
  mkCall (isAudioEnabled c) (isVideoEnabled c) (isScreenSharing c) (isMuted c)
    (callDuration c) v (showParticipants c) (peerConnections c)
    (peerConnectionsProto c) (callStartTime c).
Definition setShowParticipants (v : bool) (c : CallInterface) : CallInterface :=
  mkCall (isAudioEnabled c) (isVideoEnabled c) (isScreenSharing c) (isMuted c)
    (callDuration c) (localStream c) v (peerConnections c)
    (peerConnectionsProto c) (callStartTime c).
Definition set_peerConnections (v : gmap string nat) (c : CallInterface) : CallInterface :=
  mkCall (isAudioEnabled c) (isVideoEnabled c) (isScreenSharing c) (isMuted c)
    (callDuration c) (localStream c) (showParticipants c) v
    (peerConnectionsProto c) (callStartTime c).
Definition set_peerConnectionsProto (v : option nat) (c : CallInterface) : CallInterface :=
  mkCall (isAudioEnabled c) (isVideoEnabled c) (isScreenSharing c) (isMuted c)
    (callDuration c) (localStream c) (showParticipants c) (peerConnections c)
    v (callStartTime c).

Definition on_call (f : CallInterface → CallInterface) (p : Page) : Page :=
  mkPage (f (call p)) (browser p) (pending p).
Definition on_browser (f : Browser → Browser) (p : Page) : Page :=
  mkPage (call p) (f (browser p)) (pending p).
Definition on_pending (f : Pending → Pending) (p : Page) : Page :=
  mkPage (call p) (browser p) (f (pending p)).

(** ** Browser operations used by the source *)

(** [track.stop()]: the track ends; no [ended] event is fired for it. *)
Definition track_stop (t : nat) (b : Browser) : Browser :=
  set_tracks (alter (set_readyState ended) t (tracks b)) b.

(** [pc.close()]. *)
Definition pc_close (pc : nat) (b : Browser) : Browser :=
  set_connections (alter (set_closed true) pc (connections b)) b.

Definition console_write (e : LogEntry) (b : Browser) : Browser :=
  set_console (console b ++ [e]) b.

Definition has_kind (b : Browser) (k : TrackKind) (t : nat) : bool :=
  match tracks b !! t with
  | Some trk => bool_decide (kind trk = k)
  | None => false
  end.

(** [stream.getAudioTracks()] and [stream.getVideoTracks()]. *)
Definition getAudioTracks (b : Browser) (stream : MediaStream) : list nat :=
  List.filter (has_kind b audio) stream.
Definition getVideoTracks (b : Browser) (stream : MediaStream) : list nat :=
  List.filter (has_kind b video) stream.

(** [sender.replaceTrack(t)]; the promise it returns is not awaited. *)
Definition replaceTrack (t : option nat) (s : RTCRtpSender) : RTCRtpSender :=
  mkSender t (t :: replaced s).

(** [pc.getSenders()]: a closed connection has stopped all its transceivers
    and lists no sender. *)
Definition getSenders (c : RTCPeerConnection) : list RTCRtpSender :=
  if closed c then [] else senders c.

(** The callback of [pc.getSenders().find(s => s.track && s.track.kind === 'video')]. *)
Definition is_video_sender (b : Browser) (s : RTCRtpSender) : bool :=
  match track s with
  | Some t => has_kind b video t
  | None => false
  end.

(** Index of the first element that satisfies [f], as [Array.prototype.find]
    visits them. *)
Fixpoint find_index {A} (f : A → bool) (l : list A) : option nat :=
  match l with
  | [] => None
  | x :: l' => if f x then Some 0 else S <$> find_index f l'
  end.

(** [Object.values(o).forEach(f)] over the peer-connection map. The loop
    bodies in the source act on the visited connection only, so the order
    of the visit is immaterial (see [close_each_perm]). *)
Definition values (m : gmap string nat) : list nat := (map_to_list m).*2.

Definition for_each {A} (f : A → Browser → Browser) (l : list A) (b : Browser) : Browser :=
  foldl (λ acc x, f x acc) b l.

(** ** The handlers of [CallInterface] *)

(** [toggleAudio], as bound to the button of the latest render. *)
Definition toggleAudio (p : Page) : Page :=
  match localStream (call p) with
  | Some stream =>
      match getAudioTracks (browser p) stream with
      | audioTrack :: _ =>
          match tracks (browser p) !! audioTrack with
          | Some trk =>
              let flipped := negb (enabled trk) in
              on_call (setIsAudioEnabled flipped)
                (on_browser (λ b, set_tracks (<[audioTrack := set_enabled flipped trk]> (tracks b)) b) p)
          | None => p
          end
      | [] => p
      end
  | None => p
  end.

(** [toggleVideo]. *)
Definition toggleVideo (p : Page) : Page :=
  match localStream (call p) with
  | Some stream =>
      match getVideoTracks (browser p) stream with
      | videoTrack :: _ =>
          match tracks (browser p) !! videoTrack with
          | Some trk =>
              let flipped := negb (enabled trk) in
              on_call (setIsVideoEnabled flipped)
                (on_browser (λ b, set_tracks (<[videoTrack := set_enabled flipped trk]> (tracks b)) b) p)
          | None => p
          end
      | [] => p
      end
  | None => p
  end.

(** The body of the two [forEach] loops over the peer connections: find the
    first sender that carries a video track and, when there is one, call
    [replaceTrack(t)] on it. *)
Definition replace_video (t : option nat) (pc : nat) (b : Browser) : Browser :=
  match connections b !! pc with
  | Some c =>
      match find_index (is_video_sender b) (getSenders c) with
      | Some i =>
          set_connections
            (<[pc := set_senders (alter (replaceTrack t) i (senders c)) c]> (connections b)) b
      | None => b
      end
  | None => b
  end.

(** [if (sender && cameraTrack) sender.replaceTrack(cameraTrack)]. *)
Definition restore_video (cameraTrack : option nat) (pc : nat) (b : Browser) : Browser :=
  match cameraTrack with
  | Some t => replace_video (Some t) pc b
  | None => b
  end.

(** How a piece of code ends: normally, or by throwing [error]; either way
    with the page its effects have produced so far. *)
Inductive Completion :=
  | Normal (p : Page)
  | Throw (error : string) (p : Page).

Definition completed (c : Completion) : Page :=
  match c with
  | Normal p => p
  | Throw _ p => p
  end.

(** [peerConnections.current[key] = pc], in the strict code of an ES module,
    on the plain object the ref holds.
    - A key that is an own property of the object is overwritten.
    - Any other key is looked up along the prototype chain, which ends in
      [Object.prototype] whatever the prototype of the object is. The key
      [__proto__] is found there as an accessor: its setter makes [pc] the
      prototype of the object and creates no own property.
    - Once the prototype is a connection, a key that names an attribute of
      [RTCPeerConnection] finds that attribute's accessor: it has no
      setter, or a setter that refuses an object that is no connection, and
      the assignment throws a [TypeError].
    - Every other key finds nothing that stands in the way (the methods and
      [constructor] are writable data properties) and becomes an own
      property. *)
Definition assign (key : string) (pc : nat) (p : Page) : Completion :=
  let stored :=
    on_call (λ c, set_peerConnections (<[key := pc]> (peerConnections c)) c) p in
  match peerConnections (call p) !! key with
  | Some _ => Normal stored
  | None =>
      if bool_decide (key = "__proto__") then
        Normal (on_call (set_peerConnectionsProto (Some pc)) p)
      else
        match peerConnectionsProto (call p) with
        | Some _ =>
            if bool_decide (key ∈ pcAttributes (browser p))
            then Throw "TypeError" p
            else Normal stored
        | None => Normal stored
        end
  end.

(** [createPeerConnection(participantId, localStream)]: a new connection
    with one sender per track of the stream ([addTrack]), then assigned to
    the map object under the participant's id. The [ontrack] handler only
    feeds a video element and is left out; [onicecandidate] is
    [onicecandidate] below. *)
Definition new_connection (stream : MediaStream) : RTCPeerConnection :=
  mkPc (map (λ t, mkSender (Some t) []) stream) false None [].

Definition createPeerConnection (participantId : string) (stream : MediaStream) (p : Page)
  : Completion :=
  let pc := length (connections (browser p)) in
  assign participantId pc
    (on_browser (λ b, set_connections (connections b ++ [new_connection stream]) b) p).

(** [participant.id !== user?.id]. *)
Definition is_remote (props : Props) (participant : CallParticipant) : bool :=
  bool_decide (Some (id participant) ≠ user props).

(** [initializeMedia] after [await getUserMedia(constraints)] fulfilled with
    [stream]; [connect] is the body of its [participants.forEach(...)],
    which an exception leaves at once for the [catch] branch of
    [initializeMedia]. [participants] and [user] are those of the render
    that mounted the component. *)
Definition connect (props : Props) (stream : MediaStream)
    (acc : Completion) (participant : CallParticipant) : Completion :=
  match acc with
  | Normal p =>
      if is_remote props participant
      then createPeerConnection (id participant) stream p
      else Normal p
  | Throw error p => Throw error p
  end.

Definition initializeMedia_fulfilled (props : Props) (stream : MediaStream) (p : Page) : Page :=
  match foldl (connect props stream)
              (Normal (on_call (setLocalStream (Some stream)) p))
              (participants props) with
  | Normal p' => p'
  | Throw error p' => on_browser (console_write (ErrorMediaDevices error)) p'
  end.

(** [initializeMedia] when [getUserMedia] rejected: the [catch] branch. *)
Definition initializeMedia_rejected (error : string) (p : Page) : Page :=
  on_browser (console_write (ErrorMediaDevices error)) p.

(** [cleanup], as a closure of a render whose [localStream] state was
    [localStream]; [peerConnections] is a ref and is read when it runs.
    Its last line puts a new [{}] in the ref: no own property, the prototype
    [Object.prototype]. *)
Definition cleanup (localStream : option MediaStream) (p : Page) : Page :=
  let stopped :=
    match localStream with
    | Some stream => on_browser (for_each track_stop stream) p
    | None => p
    end in
  on_call (λ c, set_peerConnectionsProto None (set_peerConnections ∅ c))
    (on_browser (for_each pc_close (values (peerConnections (call stopped)))) stopped).

(** The handler [videoTrack.onended] assigned by [startScreenShare], a
    closure of the render in which [startScreenShare] was called. *)
Definition screen_onended (localStream : option MediaStream) (p : Page) : Page :=
  let p1 := on_call (setIsScreenSharing false) p in
  match localStream with
  | Some stream =>
      let cameraTrack := head (getVideoTracks (browser p1) stream) in
      on_browser (for_each (restore_video cameraTrack) (values (peerConnections (call p1)))) p1
  | None => p1
  end.

(** [startScreenShare] after [await getDisplayMedia(...)] fulfilled with
    [screenStream]. When the stream has no video track, [videoTrack] is
    [undefined], [replaceTrack(undefined)] clears the sender, and the
    assignment to [videoTrack.onended] throws into the [catch] branch. *)
Definition startScreenShare_fulfilled
    (localStream : option MediaStream) (screenStream : MediaStream) (p : Page) : Page :=
  let videoTrack := head (getVideoTracks (browser p) screenStream) in
  let p1 := on_browser
              (for_each (replace_video videoTrack) (values (peerConnections (call p)))) p in
  let p2 := on_call (setIsScreenSharing true) p1 in
  match videoTrack with
  | Some t =>
      on_browser (λ b, set_tracks (alter (set_onended (Some localStream)) t (tracks b)) b) p2
  | None => on_browser (console_write (ErrorScreenShare "TypeError")) p2
  end.

Definition startScreenShare_rejected (error : string) (p : Page) : Page :=
  on_browser (console_write (ErrorScreenShare error)) p.

(** [peerConnection.onicecandidate]: [event.candidate] is [null] at the end
    of gathering. *)
Definition onicecandidate (candidate : option string) (p : Page) : Page :=
  match candidate with
  | Some c => on_browser (console_write (LogIceCandidate c)) p
  | None => p
  end.

(** The [setInterval] callback, run when [Date.now()] is [now]. The
    operands are integers far below 2^53, where [Math.floor] of the
    quotient is the floor division. *)
Definition elapsed_seconds (now start : Z) : Z := ((now - start) / 1000)%Z.

Definition tick (now : Z) (p : Page) : Page :=
  on_call (λ c, setCallDuration (elapsed_seconds now (callStartTime c)) c) p.

(** What a render shows: [formatDuration(callDuration)] reads the state. *)
Definition displayed_duration (p : Page) : Z := callDuration (call p).

(** ** The component's life as a machine

    What the runtime can deliver to the component, one event at a time
    (single-threaded event loop). State setters are modelled as plain
    updates; after unmount no handler reads the [useState] values again,
    while the ref [peerConnections] and the browser objects live on. *)
Inductive Event :=
  | TimerTick (now : Z)                     (* the interval fires; Date.now() = now *)
  | UserMediaFulfilled                      (* getUserMedia resolves *)
  | UserMediaRejected (error : string)      (* getUserMedia rejects *)
  | ClickAudio
  | ClickVideo
  | ClickScreenShare
  | ClickSpeaker
  | ClickParticipants
  | DisplayMediaFulfilled (withAudio : bool) (* getDisplayMedia resolves *)
  | DisplayMediaRejected (error : string)   (* getDisplayMedia rejects *)
  | TrackEnded (t : nat)                    (* the browser ends a live track *)
  | IceCandidate (pc : nat) (candidate : option string)
                                            (* icecandidate event of a connection *)
  | RemoteCandidate (sender : string) (candidate : string)
                                            (* a candidate sent by a remote peer *)
  | Unmount.                                (* the parent ends the call *)

(** First render: the initial [useState] and [useRef] values, the timer
    armed and [initializeMedia()] started by the two mount effects. *)
Definition mount (props : Props) (now : Z) (b : Browser) : Page :=
  mkPage
    (mkCall true (bool_decide (callType props = videoCall)) false false 0%Z None false ∅ None
       now)
    b
    (mkPending true true []).

(** The mount effects have an empty dependency list, so the clean-up React
    runs at unmount is the one returned in the first render: the [cleanup]
    that closes over the first render's [localStream], the initial state
    [null]. *)
Definition first_render_localStream : option MediaStream := None.

Definition unmount (p : Page) : Page :=
  on_pending (λ q, mkPending false (userMedia q) (displayMedia q))
    (cleanup first_render_localStream p).

(** The browser creates the tracks of a stream it hands out: live, enabled,
    without handlers. *)
Definition new_tracks (kinds : list TrackKind) (b : Browser) : MediaStream * Browser :=
  (seq (length (tracks b)) (length kinds),
   set_tracks (tracks b ++ map (λ k, mkTrack k true live None) kinds) b).

(** [{ audio: true, video: callType === 'video' }]. *)
Definition constraints (props : Props) : list TrackKind :=
  match callType props with
  | videoCall => [audio; video]
  | audioCall => [audio]
  end.

Definition step (props : Props) (p : Page) (e : Event) : Page :=
  match e with
  | TimerTick now => if mounted (pending p) then tick now p else p
  | UserMediaFulfilled =>
      if userMedia (pending p) then
        let '(stream, b) := new_tracks (constraints props) (browser p) in
        initializeMedia_fulfilled props stream
          (mkPage (call p) b (mkPending (mounted (pending p)) false (displayMedia (pending p))))
      else p
  | UserMediaRejected error =>
      if userMedia (pending p) then
        initializeMedia_rejected error
          (on_pending (λ q, mkPending (mounted q) false (displayMedia q)) p)
      else p
  | ClickAudio => if mounted (pending p) then toggleAudio p else p
  | ClickVideo =>
      (* the button is rendered for video calls only *)
      if mounted (pending p) && bool_decide (callType props = videoCall)
      then toggleVideo p else p
  | ClickScreenShare =>
      (* disabled={isScreenSharing}; the call runs up to its first await *)
      if mounted (pending p) && negb (isScreenSharing (call p)) then
        on_pending (λ q, mkPending (mounted q) (userMedia q)
                           (displayMedia q ++ [localStream (call p)])) p
      else p
  | ClickSpeaker =>
      if mounted (pending p) then on_call (λ c, setIsMuted (negb (isMuted c)) c) p else p
  | ClickParticipants =>
      if mounted (pending p)
      then on_call (λ c, setShowParticipants (negb (showParticipants c)) c) p else p
  | DisplayMediaFulfilled withAudio =>
      match displayMedia (pending p) with
      | captured :: rest =>
          let '(stream, b) :=
            new_tracks (if withAudio then [video; audio] else [video]) (browser p) in
          startScreenShare_fulfilled captured stream
            (mkPage (call p) b (mkPending (mounted (pending p)) (userMedia (pending p)) rest))
      | [] => p
      end
  | DisplayMediaRejected error =>
      match displayMedia (pending p) with
      | _ :: rest =>
          startScreenShare_rejected error
            (on_pending (λ q, mkPending (mounted q) (userMedia q) rest) p)
      | [] => p
      end
  | TrackEnded t =>
      match tracks (browser p) !! t with
      | Some trk =>
          match readyState trk with
          | live =>
              let p1 := on_browser
                          (λ b, set_tracks (alter (set_readyState ended) t (tracks b)) b) p in
              match onended trk with
              | Some captured => screen_onended captured p1
              | None => p1
              end
          | ended => p
          end
      | None => p
      end
  | IceCandidate pc candidate =>
      match connections (browser p) !! pc with
      | Some c => if closed c then p else onicecandidate candidate p
      | None => p
      end
  | RemoteCandidate _ _ =>
      (* the component subscribes to no signaling transport and never calls
         addIceCandidate: nothing runs *)
      p
  | Unmount => if mounted (pending p) then unmount p else p
  end.

Definition run (props : Props) (p : Page) (events : list Event) : Page :=
  foldl (step props) p events.

(** ** [CallManager] *)

Inductive StartError := AlreadyInSession | DeviceUnavailable.

(** How the promise of an [async] function settles. *)
Inductive Settled := Fulfilled | Rejected (e : StartError).

(** [startCall(type, participantId)] of [CallManager]; the page is the one
    the manager runs in, whatever call interface it holds. *)
Definition startCall (type : CallType) (participantId : string) (p : Page) : Settled * Page :=
  (Fulfilled, on_browser (console_write (LogStartingCall type participantId)) p).

(** ** Observations used in the statements *)



(** The toggle of a kind, and "the local stream is missing or holds no
    track of that kind". *)
Definition toggle (k : TrackKind) : Page → Page :=
  match k with
  | audio => toggleAudio
  | video => toggleVideo
  end.

Definition no_local_track (k : TrackKind) (p : Page) : Prop :=
  match localStream (call p) with
  | Some stream => List.filter (has_kind (browser p) k) stream = []
  | None => True
  end.

(** What the loop body does to a visited connection: the first sender with
    a video track gets [replaceTrack(t)]; a connection without one is left
    alone. Only the tracks of [b] are consulted. *)
Definition replace_in (b : Browser) (t : option nat) (c : RTCPeerConnection)
  : RTCPeerConnection :=
  match find_index (is_video_sender b) (getSenders c) with
  | Some i => set_senders (alter (replaceTrack t) i (senders c)) c
  | None => c
  end.

(** The times at which the interval fired, the durations shown after each
    event of a run, and the time of the last tick that reached a mounted
    component ([lo] when there was none). *)
Definition tick_times (events : list Event) : list Z :=
  omap (λ e, match e with TimerTick t => Some t | _ => None end) events.

Fixpoint readings (props : Props) (p : Page) (events : list Event) : list Z :=
  match events with
  | [] => []
  | e :: rest => displayed_duration (step props p e) :: readings props (step props p e) rest
  end.

Fixpoint last_tick (lo : Z) (events : list Event) : Z :=
  match events with
  | [] => lo
  | TimerTick t :: rest => last_tick t rest
  | Unmount :: _ => lo
  | _ :: rest => last_tick lo rest
  end.

(** A roster of three with the local user in it, used as the running
    example, and a browser with nothing in it yet. *)
Definition roster3 : list CallParticipant :=
  [mkParticipant "me" "Me" false;
   mkParticipant "2" "Anna" false;
   mkParticipant "3" "Mikhail" false].

Definition video_props : Props := mkProps videoCall roster3 (Some "me").
Definition audio_props : Props := mkProps audioCall roster3 (Some "me").

(** The attributes of [RTCPeerConnection] in the WebRTC recommendation. *)
Definition webrtc_attributes : list string :=
  ["localDescription"; "currentLocalDescription"; "pendingLocalDescription";
   "remoteDescription"; "currentRemoteDescription"; "pendingRemoteDescription";
   "signalingState"; "iceGatheringState"; "iceConnectionState"; "connectionState";
   "canTrickleIceCandidates"; "onnegotiationneeded"; "onicecandidate";
   "onicecandidateerror"; "onsignalingstatechange"; "oniceconnectionstatechange";
   "onicegatheringstatechange"; "onconnectionstatechange"; "ontrack"; "sctp";
   "ondatachannel"].

Definition blank : Browser := mkBrowser [] [] [] webrtc_attributes.

(** A video call whose media was acquired: tracks 0 (audio) and 1 (video),
    connections 0 (to "2") and 1 (to "3"). *)
Definition active_video_call : Page :=
  run video_props (mount video_props 0%Z blank) [UserMediaFulfilled].

Definition active_audio_call : Page :=
  run audio_props (mount audio_props 0%Z blank) [UserMediaFulfilled].

(** A roster of three in which a remote participant's id is [__proto__]. *)
Definition proto_roster : list CallParticipant :=
  [mkParticipant "me" "Me" false;
   mkParticipant "__proto__" "Anna" false;
   mkParticipant "2" "Mikhail" false].

Definition proto_props : Props := mkProps videoCall proto_roster (Some "me").

(** [createPeerConnection] and the loop body when the assignment creates an
    own property: what they do as long as the map object has the prototype
    of [{}] and no id is [__proto__] (see [connect_all_own]). *)
Definition createPeerConnection_own (participantId : string) (stream : MediaStream) (p : Page)
  : Page :=
  let pc := length (connections (browser p)) in
  on_call (λ c, set_peerConnections (<[participantId := pc]> (peerConnections c)) c)
    (on_browser (λ b, set_connections (connections b ++ [new_connection stream]) b) p).

Definition connect_own (props : Props) (stream : MediaStream)
    (acc : Page) (participant : CallParticipant) : Page :=
  if is_remote props participant
  then createPeerConnection_own (id participant) stream acc
  else acc.

(** ** More of the call interface: what a render shows *)

(** [s.padStart(n, c)]. *)
Fixpoint repeat_char (n : nat) (c : Ascii.ascii) : string :=
  match n with
  | 0 => ""
  | S n' => String c (repeat_char n' c)
  end.

Definition padStart (n : nat) (c : Ascii.ascii) (s : string) : string :=
  repeat_char (n - String.length s) c +:+ s.

(** [formatDuration(seconds)] of [CallInterface]. [Math.floor] of the
    quotient is [Z.div]; the remainder [%] of JavaScript has the sign of the
    dividend, as [Z.rem]; [toString()] of an integer is [pretty]. *)
Definition formatDuration (seconds : Z) : string :=
  let mins := (seconds / 60)%Z in
  let secs := Z.rem seconds 60 in
  padStart 2 "0"%char (pretty mins) +:+ ":" +:+ padStart 2 "0"%char (pretty secs).

(** [getMainParticipant()]: [a || b] yields [b] when the first [find]
    found nothing. *)
Definition getMainParticipant (props : Props) : option CallParticipant :=
  match List.find (λ p, isSpeaking p && is_remote props p) (participants props) with
  | Some speakingParticipant => Some speakingParticipant
  | None => List.find (is_remote props) (participants props)
  end.

(** ** The call history of [CallManager] *)

Module CallManager.

Record Participant := mkParticipant {
  id : string;
  name : string }.

Inductive Direction := incoming | outgoing | missed.

Record CallRecord := mkCallRecord {
  callId : string;
  type : CallType;
  direction : Direction;
  participants : list Participant;
  duration : option Z;
  startTime : string }.

(** [formatDuration(seconds)] of [CallManager]. *)
Definition formatDuration (seconds : Z) : string :=
  let hrs := (seconds / 3600)%Z in
  let mins := (Z.rem seconds 3600 / 60)%Z in
  let secs := Z.rem seconds 60 in
  if bool_decide (0 < hrs)%Z
  then pretty hrs +:+ ":" +:+ padStart 2 "0"%char (pretty mins) +:+ ":" +:+
       padStart 2 "0"%char (pretty secs)
  else pretty mins +:+ ":" +:+ padStart 2 "0"%char (pretty secs).

(** [getParticipantNames(participants)]. Reading [.name] of
    [participants[0]] when the array is empty throws a [TypeError]: [None]. *)
Definition getParticipantNames (participants : list Participant) : option string :=
  if bool_decide (length participants = 1) then
    p0 ← participants !! 0; Some (name p0)
  else if bool_decide (length participants = 2) then
    p0 ← participants !! 0; p1 ← participants !! 1;
    Some (name p0 +:+ ", " +:+ name p1)
  else
    p0 ← participants !! 0;
    Some (name p0 +:+ " и еще " +:+ pretty (length participants - 1)).

(** The callback of [callHistory.reduce(...)] that builds [groupedCalls].
    [dateKey] is [s => new Date(s).toDateString()], whose results are never
    names of [Object.prototype]. *)
Definition group_call (dateKey : string → string)
    (groups : gmap string (list CallRecord)) (call : CallRecord)
  : gmap string (list CallRecord) :=
  let date := dateKey (startTime call) in
  let groups1 :=
    match groups !! date with
    | Some _ => groups
    | None => <[date := []]> groups
    end in
  alter (λ calls, calls ++ [call]) date groups1.

Definition groupedCalls (dateKey : string → string) (callHistory : list CallRecord)
  : gmap string (list CallRecord) :=
  foldl (group_call dateKey) ∅ callHistory.

End CallManager.

(** ** The message list of [ChatWindow] *)

Module ChatWindow.

Record Message := mkMessage {
  id : string;
  senderId : string;
  content : string }.

(** The updater [prev => [...prev, message]] that [sendMessage],
    [sendAudioMessage] and [handleFileUpload] pass to [setMessages] once
    the server accepted the message. *)
Definition append_message (message : Message) (prev : list Message) : list Message :=
  prev ++ [message].

(** The updater [prev => prev.filter(msg => msg.id !== messageId)] of
    [deleteMessage]. *)
Definition remove_message (messageId : string) (prev : list Message) : list Message :=
  List.filter (λ msg, bool_decide (id msg ≠ messageId)) prev.

End ChatWindow.

(** ** The music player shown in [ChatWindow] *)

Module MusicPlayer.

Inductive RepeatMode := none | one | all.

#[global] Instance RepeatMode_eq_dec : EqDecision RepeatMode.
Proof. solve_decision. Defined.

Definition modes : list RepeatMode := [none; one; all].

(** [modes.indexOf(m)], [-1] when absent. *)
Fixpoint indexOf (m : RepeatMode) (l : list RepeatMode) : Z :=
  match l with
  | [] => (-1)%Z
  | x :: l' =>
      if decide (x = m) then 0%Z
      else let i := indexOf m l' in if bool_decide (i = -1)%Z then (-1)%Z else (i + 1)%Z
  end.

(** [toggleRepeat]: the next mode, [modes[(currentIndex + 1) % modes.length]];
    the index is always in range, [default] is never reached. *)
Definition toggleRepeat (repeatMode : RepeatMode) : RepeatMode :=
  let currentIndex := indexOf repeatMode modes in
  default none (modes !! Z.to_nat (Z.rem (currentIndex + 1) (Z.of_nat (length modes)))).

End MusicPlayer.

(** ** The selection of [NewChat] *)

Module NewChat.

(** The updater of [handleUserToggle(userId)]. *)
Definition handleUserToggle (userId : string) (prev : list string) : list string :=
  if bool_decide (userId ∈ prev)
  then List.filter (λ id, bool_decide (id ≠ userId)) prev
  else prev ++ [userId].

End NewChat.

(** ** Store orderings used in the statements *)

(** [l'] keeps every entry of [l], at the same index, up to [R]. *)
Definition kept {A} (R : A → A → Prop) (l l' : list A) : Prop :=
  ∀ i x, l !! i = Some x → ∃ y, l' !! i = Some y ∧ R x y.

(** A track keeps its kind, and stays ended once ended. A connection keeps
    the number of its senders, and stays closed once closed. *)
Definition track_kept (trk trk' : MediaStreamTrack) : Prop :=
  kind trk' = kind trk ∧ (readyState trk = ended → readyState trk' = ended).

Definition connection_kept (c c' : RTCPeerConnection) : Prop :=
  length (senders c') = length (senders c) ∧ (closed c = true → closed c' = true).

(** [b'] keeps what [b] holds: every track and every connection is still
    there, and the console has only grown. *)
Definition store_kept (b b' : Browser) : Prop :=
  kept track_kept (tracks b) (tracks b') ∧
  kept connection_kept (connections b) (connections b') ∧
  console b `prefix_of` console b'.

(** Moreover no connection was closed or reopened. *)
Definition store_calm (b b' : Browser) : Prop :=
  store_kept b b' ∧
  kept (λ c c', closed c' = closed c) (connections b) (connections b').

(** Every connection of the browser is closed; and every connection is
    closed unless the map still names it. *)
Definition all_closed (b : Browser) : Prop :=
  ∀ pc c, connections b !! pc = Some c → closed c = true.

Definition no_orphan (p : Page) : Prop :=
  ∀ pc c, connections (browser p) !! pc = Some c →
          closed c = true ∨ pc ∈ values (peerConnections (call p)).

(** The peer-connection map is sound: each entry names an existing, open
    connection and no connection is named twice. *)
Definition map_sound (p : Page) : Prop :=
  (∀ k pc, peerConnections (call p) !! k = Some pc →
     ∃ c, connections (browser p) !! pc = Some c ∧ closed c = false) ∧
  (∀ k1 k2 pc, peerConnections (call p) !! k1 = Some pc →
               peerConnections (call p) !! k2 = Some pc → k1 = k2).

(** * Proofs *)

(** ** Toggles *)

Lemma has_kind_fmap (b b' : Browser) (k : TrackKind) (t : nat) :
  kind <$> tracks b' = kind <$> tracks b → has_kind b' k t = has_kind b k t.
Proof.
  intros Hk. unfold has_kind.
  assert (H : kind <$> (tracks b' !! t) = kind <$> (tracks b !! t))
    by (rewrite <- !list_lookup_fmap; by rewrite Hk).
  destruct (tracks b' !! t), (tracks b !! t); simpl in H; try congruence.
  by inversion H.
Qed.

Lemma filter_has_kind_fmap (b b' : Browser) (k : TrackKind) (stream : MediaStream) :
  kind <$> tracks b' = kind <$> tracks b →
  List.filter (has_kind b' k) stream = List.filter (has_kind b k) stream.
Proof.
  intros Hk. induction stream as [|t stream IH]; [done|].
  simpl. rewrite (has_kind_fmap b b' k t Hk), IH. done.
Qed.

Lemma fmap_insert_same {A B} (f : A → B) (l : list A) (i : nat) (x y : A) :
  l !! i = Some x → f y = f x → f <$> <[i:=y]> l = f <$> l.
Proof.
  intros Hl Hf. rewrite list_fmap_insert, Hf.
  apply list_insert_id. by rewrite list_lookup_fmap, Hl.
Qed.

(** One [toggleAudio] on a stream whose first audio track is [t]. *)
Lemma toggleAudio_flip (p : Page) (stream : MediaStream) (t : nat) (trk : MediaStreamTrack) :
  localStream (call p) = Some stream →
  head (getAudioTracks (browser p) stream) = Some t →
  tracks (browser p) !! t = Some trk →
  toggleAudio p =
    on_call (setIsAudioEnabled (negb (enabled trk)))
      (on_browser
         (λ b, set_tracks (<[t := set_enabled (negb (enabled trk)) trk]> (tracks b)) b) p).
Proof.
  intros Hs Ht Hl. unfold toggleAudio. rewrite Hs.
  destruct (getAudioTracks (browser p) stream) as [|t' rest]; [done|].
  simpl in Ht. injection Ht as ->. by rewrite Hl.
Qed.

(** The invariant carried along a run of toggles. *)
Lemma toggleAudio_iter (p : Page) (stream : MediaStream) (t : nat) (n : nat) :
  localStream (call p) = Some stream →
  head (getAudioTracks (browser p) stream) = Some t →
  enabled <$> tracks (browser p) !! t = Some true →
  isAudioEnabled (call p) = true →
  let p' := Nat.iter n toggleAudio p in
  localStream (call p') = Some stream ∧
  kind <$> tracks (browser p') = kind <$> tracks (browser p) ∧
  readyState <$> tracks (browser p') = readyState <$> tracks (browser p) ∧
  enabled <$> tracks (browser p') !! t = Some (Nat.even n) ∧
  isAudioEnabled (call p') = Nat.even n.
Proof.
  intros Hs Ht Hen Hrep. induction n as [|n IH].
  - simpl. done.
  - destruct IH as (IHs & IHk & IHr & IHe & IHa).
    change (Nat.iter (S n) toggleAudio p) with (toggleAudio (Nat.iter n toggleAudio p)).
    set (q := Nat.iter n toggleAudio p) in *. cbv zeta.
    destruct (tracks (browser q) !! t) as [trk|] eqn:Hl; [|done].
    simpl in IHe. injection IHe as IHe.
    assert (Hq : head (getAudioTracks (browser q) stream) = Some t).
    { unfold getAudioTracks in *. by rewrite (filter_has_kind_fmap _ _ _ _ IHk). }
    rewrite (toggleAudio_flip q stream t trk IHs Hq Hl). simpl.
    rewrite (fmap_insert_same kind _ t trk) by done.
    rewrite (fmap_insert_same readyState _ t trk) by done.
    rewrite list_lookup_insert_eq by (by eapply lookup_lt_Some).
    simpl. change (match n with 0 => false | S n' => Nat.even n' end) with (Nat.even (S n)).
    rewrite IHe, Nat.even_succ, <- Nat.negb_even. done.
Qed.

(** C5. For a local stream whose first audio track is enabled (and the
    audio button showing "enabled", its initial state), after [n] calls of
    [toggleAudio] the track is enabled exactly when [n] is even, no track
    has been stopped (every ready state is as it was), and the reported
    audio-enabled state equals the track's flag. *)
Theorem toggleAudio_parity
    (p : Page) (stream : MediaStream) (t : nat) (n : nat)
    (Hstream : localStream (call p) = Some stream)
    (Hfirst : head (getAudioTracks (browser p) stream) = Some t)
    (Henabled : enabled <$> tracks (browser p) !! t = Some true)
    (Hreported : isAudioEnabled (call p) = true) :
  let p' := Nat.iter n toggleAudio p in
  enabled <$> tracks (browser p') !! t = Some (Nat.even n) ∧
  readyState <$> tracks (browser p') = readyState <$> tracks (browser p) ∧
  Some (isAudioEnabled (call p')) = enabled <$> tracks (browser p') !! t.
Proof.
  destruct (toggleAudio_iter p stream t n Hstream Hfirst Henabled Hreported)
    as (_ & _ & Hr & He & Ha).
  cbv zeta. rewrite He, Ha. done.
Qed.

Lemma toggleAudio_parity_witness :
  let p' := Nat.iter 3 toggleAudio active_video_call in
  enabled <$> tracks (browser p') !! 0 = Some false ∧
  readyState <$> tracks (browser p') = [live; live] ∧
  Some (isAudioEnabled (call p')) = enabled <$> tracks (browser p') !! 0.
Proof.
  exact (toggleAudio_parity active_video_call [0; 1] 0 3
           eq_refl eq_refl eq_refl eq_refl).
Defined.

(** C10. [toggleVideo] (and likewise [toggleAudio]) on a page whose local
    stream is missing, or holds no track of that kind, changes nothing: no
    track, no reported state, nothing at all; the function is total, so no
    error is raised. *)
Theorem toggle_without_track_is_noop
    (k : TrackKind) (p : Page) (Hnone : no_local_track k p) :
  toggle k p = p.
Proof.
  unfold no_local_track in Hnone.
  destruct k; simpl; unfold toggleAudio, toggleVideo, getAudioTracks, getVideoTracks;
    destruct (localStream (call p)); try done; by rewrite Hnone.
Qed.

Lemma toggle_without_track_is_noop_witness :
  toggleVideo active_audio_call = active_audio_call ∧
  toggleAudio (mount video_props 0%Z blank) = mount video_props 0%Z blank.
Proof.
  split.
  - apply (toggle_without_track_is_noop video active_audio_call). reflexivity.
  - apply (toggle_without_track_is_noop audio (mount video_props 0%Z blank)). exact I.
Defined.

(** ** Clean-up *)

Section ForEachAlter.
Context {A : Type} (f : A → A).

(** Looking up in a list after a loop of in-place updates. *)
Lemma lookup_foldl_alter (ids : list nat) (l : list A) (i : nat) :
  (∀ x, f (f x) = f x) →
  foldl (λ acc t, alter f t acc) l ids !! i =
    if decide (i ∈ ids) then f <$> l !! i else l !! i.
Proof.
  intros Hidem. revert l. induction ids as [|a ids IH]; intros l.
  - simpl foldl. case_decide as Hin; [by apply elem_of_nil in Hin|done].
  - simpl foldl. rewrite IH. destruct (decide (a = i)) as [->|Hne].
    + rewrite list_lookup_alter_eq, (decide_True (P := i ∈ i :: ids)) by left.
      destruct (decide (i ∈ ids)); [|done].
      destruct (l !! i); simpl; by rewrite ?Hidem.
    + rewrite list_lookup_alter_ne by done.
      destruct (decide (i ∈ ids)) as [Hin|Hnin].
      * by rewrite decide_True by (by right).
      * rewrite decide_False; [done|]. rewrite elem_of_cons. intros [?|?]; congruence.
Qed.

(** The loop does the same whatever the order of the visit. *)
Lemma foldl_alter_perm (ids ids' : list nat) (l : list A) :
  (∀ x, f (f x) = f x) → ids ≡ₚ ids' →
  foldl (λ acc t, alter f t acc) l ids = foldl (λ acc t, alter f t acc) l ids'.
Proof.
  intros Hidem Hperm. apply list_eq. intros i.
  rewrite !lookup_foldl_alter by done.
  destruct (decide (i ∈ ids)) as [Hin|Hnin].
  - rewrite decide_True; [done|]. by rewrite <- Hperm.
  - rewrite decide_False; [done|]. by rewrite <- Hperm.
Qed.

End ForEachAlter.

Lemma for_each_track_stop (stream : MediaStream) (b : Browser) :
  for_each track_stop stream b =
    set_tracks (foldl (λ acc t, alter (set_readyState ended) t acc) (tracks b) stream) b.
Proof.
  unfold for_each. revert b. induction stream as [|t stream IH]; intros b; simpl.
  - by destruct b.
  - rewrite IH. done.
Qed.

Lemma for_each_pc_close (ids : list nat) (b : Browser) :
  for_each pc_close ids b =
    set_connections (foldl (λ acc pc, alter (set_closed true) pc acc) (connections b) ids) b.
Proof.
  unfold for_each. revert b. induction ids as [|pc ids IH]; intros b; simpl.
  - by destruct b.
  - rewrite IH. done.
Qed.

(** The order in which [Object.values] lists the connections does not
    matter to the closing loop. *)
Lemma close_each_perm (ids ids' : list nat) (b : Browser) :
  ids ≡ₚ ids' → for_each pc_close ids b = for_each pc_close ids' b.
Proof.
  intros Hperm. rewrite !for_each_pc_close.
  by rewrite (foldl_alter_perm (set_closed true) ids ids').
Qed.

Lemma values_empty : values ∅ = [].
Proof. unfold values. by rewrite map_to_list_empty. Qed.

(** What [cleanup] leaves behind, field by field. *)
Lemma cleanup_unfold (ls : option MediaStream) (p : Page) :
  cleanup ls p =
    mkPage
      (set_peerConnectionsProto None (set_peerConnections ∅ (call p)))
      (mkBrowser
         (foldl (λ acc t, alter (set_readyState ended) t acc)
                (tracks (browser p)) (default [] ls))
         (foldl (λ acc pc, alter (set_closed true) pc acc)
                (connections (browser p)) (values (peerConnections (call p))))
         (console (browser p))
         (pcAttributes (browser p)))
      (pending p).
Proof.
  unfold cleanup. destruct ls as [stream|]; simpl;
    unfold on_call, on_browser; simpl;
    rewrite ?for_each_pc_close, ?for_each_track_stop; done.
Qed.





(** The clean-up React runs at unmount is the first render's, which sees no
    stream: it never stops a track. *)
Lemma unmount_keeps_tracks (p : Page) :
  tracks (browser (unmount p)) = tracks (browser p).
Proof. unfold unmount, first_render_localStream. by rewrite cleanup_unfold. Qed.

(** C1. Ending the call by unmounting the component does not release the
    media: from the active state the two local tracks stay live (the
    connections are closed and the map emptied); ended while
    [getUserMedia] is pending, the acquisition that completes afterwards
    leaves two live tracks and two open connections in the map. *)
Theorem unmount_leaves_tracks_live :
  let ended_active :=
    run video_props (mount video_props 0%Z blank) [UserMediaFulfilled; Unmount] in
  let ended_mid_connect :=
    run video_props (mount video_props 0%Z blank) [Unmount; UserMediaFulfilled] in
  (localStream (call active_video_call) = Some [0; 1] ∧
   readyState <$> tracks (browser ended_active) = [live; live] ∧
   closed <$> connections (browser ended_active) = [true; true] ∧
   peerConnections (call ended_active) = ∅) ∧
  (readyState <$> tracks (browser ended_mid_connect) = [live; live] ∧
   closed <$> connections (browser ended_mid_connect) = [false; false] ∧
   size (peerConnections (call ended_mid_connect)) = 2).
Proof. vm_compute. repeat split. Qed.

(** ** Failed acquisition *)

(** The browser's new screen track is the video track of the stream it
    hands out. *)
Lemma head_new_screen_track (withAudio : bool) (b : Browser) :
  let '(stream, b') := new_tracks (if withAudio then [video; audio] else [video]) b in
  head (getVideoTracks b' stream) = Some (length (tracks b)).
Proof.
  assert (Hfirst : ∀ rest,
            has_kind (set_tracks (tracks b ++ mkTrack video true live None :: rest) b)
                     video (length (tracks b)) = true).
  { intros rest. unfold has_kind. simpl.
    rewrite lookup_app_r by lia. by rewrite Nat.sub_diag. }
  destruct withAudio; simpl; unfold getVideoTracks; simpl; by rewrite Hfirst.
Qed.

(** C4, as the code has it. When [getUserMedia] rejects during the start,
    the failure is caught and only written to the console. Nothing of the
    start is retained: the component's state is what it was at mount (no
    local stream stored, no peer connection in the map) and the browser
    holds no new track and no new connection. But the start is not failed
    and the call is not idle: the component stays mounted, its timer goes
    on counting the duration, and its controls work, so that a screen share
    started afterwards is granted and leaves a live screen track. The
    [catch] branch does the same on any page. *)
Theorem acquisition_failure_is_swallowed
    (props : Props) (now : Z) (b : Browser) (error : string) (later : Z) :
  let started := mount props now b in
  let failed := run props started [UserMediaRejected error] in
  let sharing := run props failed [ClickScreenShare; DisplayMediaFulfilled false] in
  (call failed = call started ∧
   localStream (call failed) = None ∧
   peerConnections (call failed) = ∅ ∧
   tracks (browser failed) = tracks b ∧
   connections (browser failed) = connections b ∧
   console (browser failed) = console b ++ [ErrorMediaDevices error]) ∧
  (mounted (pending failed) = true ∧
   userMedia (pending failed) = false ∧
   displayed_duration (run props failed [TimerTick later]) = elapsed_seconds later now ∧
   isScreenSharing (call sharing) = true ∧
   localStream (call sharing) = None ∧
   tracks (browser sharing) = tracks b ++ [mkTrack video true live (Some None)]) ∧
  (∀ p : Page,
     call (initializeMedia_rejected error p) = call p ∧
     pending (initializeMedia_rejected error p) = pending p ∧
     tracks (browser (initializeMedia_rejected error p)) = tracks (browser p) ∧
     connections (browser (initializeMedia_rejected error p)) = connections (browser p)).
Proof.
  cbv zeta. split; [done|]. split; [|done].
  split; [done|]. split; [done|]. split; [done|].
  simpl. unfold startScreenShare_fulfilled.
  pose proof (head_new_screen_track false (console_write (ErrorMediaDevices error) b)) as Hhead.
  simpl in Hhead. simpl. rewrite Hhead. simpl.
  split; [done|]. split; [done|].
  rewrite values_empty. simpl.
  rewrite alter_app_r_alt by lia. by rewrite Nat.sub_diag.
Qed.

(** C4 as stated fails: after a failed acquisition the call is neither
    failed nor idle. The component is still mounted; five seconds later it
    shows a duration of 5; a screen share asked for then is granted, the
    interface shows the screen as shared and the browser holds a live
    screen track, while no local stream was ever stored. *)
Lemma failed_start_goes_on :
  let failed :=
    run video_props (mount video_props 0%Z blank) [UserMediaRejected "NotFoundError"] in
  let later :=
    run video_props failed [TimerTick 5000; ClickScreenShare; DisplayMediaFulfilled false] in
  mounted (pending failed) = true ∧
  console (browser failed) = [ErrorMediaDevices "NotFoundError"] ∧
  displayed_duration later = 5%Z ∧
  isScreenSharing (call later) = true ∧
  localStream (call later) = None ∧
  readyState <$> tracks (browser later) = [live].
Proof. vm_compute. repeat split. Qed.

(** ** Starting a call from the call manager *)

(** C2, as the code has it. [startCall] never fails, whatever the state of
    the session on the page: its promise fulfils, the call interface, the
    tracks, the connections and the pending work are untouched and no
    session is created; it writes one line on the console. *)
Theorem startCall_only_logs (type : CallType) (participantId : string) (p : Page) :
  let '(settled, p') := startCall type participantId p in
  settled = Fulfilled ∧
  call p' = call p ∧
  pending p' = pending p ∧
  tracks (browser p') = tracks (browser p) ∧
  connections (browser p') = connections (browser p) ∧
  console (browser p') = console (browser p) ++ [LogStartingCall type participantId].
Proof. simpl. done. Qed.

(** C2 as stated fails: a [startCall] made while a call is active is not
    rejected with [AlreadyInSession]. *)
Lemma startCall_not_rejected :
  (startCall videoCall "2" active_video_call).1 ≠ Rejected AlreadyInSession.
Proof. discriminate. Qed.

(** ** ICE candidates *)

Lemma on_browser_console_app (l1 l2 : list LogEntry) (p : Page) :
  on_browser (λ b, set_console (console b ++ l2) b)
    (on_browser (λ b, set_console (console b ++ l1) b) p) =
  on_browser (λ b, set_console (console b ++ (l1 ++ l2)) b) p.
Proof. unfold on_browser, set_console. simpl. by rewrite app_assoc. Qed.

Lemma on_browser_console_nil (p : Page) :
  on_browser (λ b, set_console (console b ++ []) b) p = p.
Proof.
  destruct p as [c [t cs l attrs] q]. unfold on_browser, set_console. simpl.
  by rewrite app_nil_r.
Qed.

Lemma run_ice_candidates (props : Props) (pc : nat) (candidates : list (option string))
    (p : Page) :
  closed <$> connections (browser p) !! pc = Some false →
  run props p (IceCandidate pc <$> candidates) =
    on_browser (λ b, set_console (console b ++ (LogIceCandidate <$> omap (λ c, c) candidates)) b) p.
Proof.
  revert p. induction candidates as [|c candidates IH]; intros p Hopen.
  - simpl. by rewrite on_browser_console_nil.
  - simpl. destruct (connections (browser p) !! pc) as [conn|] eqn:Hc; [|done].
    simpl in Hopen. injection Hopen as Hcl. rewrite Hcl.
    destruct c as [x|]; simpl.
    + fold (run props (on_browser (console_write (LogIceCandidate x)) p)
                (IceCandidate pc <$> candidates)).
      rewrite IH by (simpl; by rewrite Hc, <- Hcl).
      apply (on_browser_console_app [LogIceCandidate x]).
    + fold (run props p (IceCandidate pc <$> candidates)).
      apply IH. by rewrite Hc, <- Hcl.
Qed.

Lemma run_remote_candidates (props : Props) (received : list (string * string)) (p : Page) :
  run props p ((λ m, RemoteCandidate m.1 m.2) <$> received) = p.
Proof. induction received as [|m received IH]; simpl; [done|apply IH]. Qed.

(** C3, as the code has it. There is no [handleRemoteCandidate] and no
    queue. The candidate events of an open peer connection are written to
    the console, one line per non-null candidate in arrival order (the
    null event that ends gathering writes nothing), and change nothing
    else; candidates sent by remote peers reach no handler: the page, with
    every connection's local description and applied remote candidates, is
    as it was. *)
Theorem candidates_logged_never_queued
    (props : Props) (p : Page) (pc : nat)
    (candidates : list (option string)) (received : list (string * string))
    (Hopen : closed <$> connections (browser p) !! pc = Some false) :
  run props p (IceCandidate pc <$> candidates) =
    on_browser
      (λ b, set_console (console b ++ (LogIceCandidate <$> omap (λ c, c) candidates)) b) p ∧
  run props p ((λ m, RemoteCandidate m.1 m.2) <$> received) = p.
Proof. split; [by apply run_ice_candidates | apply run_remote_candidates]. Qed.

Lemma candidates_logged_never_queued_witness :
  console (browser (run video_props active_video_call
                      [IceCandidate 0 (Some "a"); IceCandidate 0 None; IceCandidate 0 (Some "b")])) =
    [LogIceCandidate "a"; LogIceCandidate "b"] ∧
  run video_props active_video_call [RemoteCandidate "2" "c1"] = active_video_call.
Proof.
  destruct (candidates_logged_never_queued video_props active_video_call 0
              [Some "a"; None; Some "b"] [("2", "c1")] eq_refl) as [Hlocal Hremote].
  split.
  - exact (f_equal (λ q, console (browser q)) Hlocal).
  - exact Hremote.
Defined.

(** C3 as stated fails: three candidates received from the remote peer "2"
    before any local description is set are neither queued nor applied;
    the page is as it was and the connection holds no remote candidate. *)
Lemma remote_candidates_are_dropped :
  let received :=
    [RemoteCandidate "2" "c1"; RemoteCandidate "2" "c2"; RemoteCandidate "2" "c3"] in
  let after := run video_props active_video_call received in
  peerConnections (call active_video_call) !! "2" = Some 0 ∧
  localDescription <$> connections (browser active_video_call) !! 0 = Some None ∧
  after = active_video_call ∧
  remoteCandidates <$> connections (browser after) !! 0 = Some [].
Proof. vm_compute. repeat split. Qed.

(** ** One peer connection per remote participant *)

Section Roster.
Context (props : Props) (stream : MediaStream).

(** Three ways for the assignment to end. *)
Lemma assign_cases (key : string) (pc : nat) (p : Page) :
  (key = "__proto__" ∧
   assign key pc p = Normal (on_call (set_peerConnectionsProto (Some pc)) p)) ∨
  assign key pc p =
    Normal (on_call (λ c, set_peerConnections (<[key := pc]> (peerConnections c)) c) p) ∨
  (key ≠ "__proto__" ∧ is_Some (peerConnectionsProto (call p)) ∧
   assign key pc p = Throw "TypeError" p).
Proof.
  unfold assign. destruct (peerConnections (call p) !! key); [by right; left|].
  case_bool_decide as Hkey; [by left|]. right.
  destruct (peerConnectionsProto (call p)) as [proto|]; [|by left].
  case_bool_decide; [right|left]; done.
Qed.

(** On an object with the prototype of [{}], a key other than [__proto__]
    becomes an own property. *)
Lemma assign_own (key : string) (pc : nat) (p : Page) :
  peerConnectionsProto (call p) = None → key ≠ "__proto__" →
  assign key pc p =
    Normal (on_call (λ c, set_peerConnections (<[key := pc]> (peerConnections c)) c) p).
Proof.
  intros Hproto Hkey. unfold assign. rewrite bool_decide_eq_false_2 by done.
  rewrite Hproto. by destruct (peerConnections (call p) !! key).
Qed.

Lemma createPeerConnection_is_own (participantId : string) (p : Page) :
  peerConnectionsProto (call p) = None → participantId ≠ "__proto__" →
  createPeerConnection participantId stream p =
    Normal (createPeerConnection_own participantId stream p).
Proof.
  intros Hproto Hkey. unfold createPeerConnection. by rewrite assign_own.
Qed.

Lemma connect_remote (p : Page) (a : CallParticipant) :
  is_remote props a = true → connect_own props stream p a = createPeerConnection_own (id a) stream p.
Proof. unfold connect_own. by intros ->. Qed.

Lemma connect_local (p : Page) (a : CallParticipant) :
  is_remote props a = false → connect_own props stream p a = p.
Proof. unfold connect_own. by intros ->. Qed.

Lemma connect_all_own_proto (l : list CallParticipant) (p : Page) :
  peerConnectionsProto (call (foldl (connect_own props stream) p l)) =
    peerConnectionsProto (call p).
Proof.
  revert p. induction l as [|a l IH]; intros p; simpl; [done|].
  rewrite IH. unfold connect_own. by destruct (is_remote props a).
Qed.

(** While no remote participant's id is [__proto__], the loop of
    [initializeMedia] never throws and stores every connection it makes. *)
Lemma connect_all_own (l : list CallParticipant) (p : Page) :
  peerConnectionsProto (call p) = None →
  "__proto__" ∉ id <$> List.filter (is_remote props) l →
  foldl (connect props stream) (Normal p) l = Normal (foldl (connect_own props stream) p l).
Proof.
  revert p. induction l as [|a l IH]; intros p Hproto Hkey; simpl; [done|].
  simpl in Hkey. unfold connect_own at 2. destruct (is_remote props a) eqn:Hrem.
  - simpl in Hkey. apply not_elem_of_cons in Hkey as [Hne Hkey].
    rewrite createPeerConnection_is_own by done. by apply IH.
  - by apply IH.
Qed.

Lemma connect_all_connections (l : list CallParticipant) (p : Page) :
  connections (browser (foldl (connect_own props stream) p l)) =
    connections (browser p) ++
      ((λ _, new_connection stream) <$> List.filter (is_remote props) l).
Proof.
  revert p. induction l as [|a l IH]; intros p; simpl.
  - by rewrite app_nil_r.
  - rewrite IH. destruct (is_remote props a) eqn:Hrem.
    + rewrite connect_remote by done. simpl. by rewrite <- app_assoc.
    + by rewrite connect_local.
Qed.

Lemma connect_all_tracks (l : list CallParticipant) (p : Page) :
  tracks (browser (foldl (connect_own props stream) p l)) = tracks (browser p).
Proof.
  revert p. induction l as [|a l IH]; intros p; simpl; [done|].
  rewrite IH. destruct (is_remote props a) eqn:Hrem.
  - by rewrite connect_remote.
  - by rewrite connect_local.
Qed.

Lemma connect_all_dom (l : list CallParticipant) (p : Page) :
  dom (peerConnections (call (foldl (connect_own props stream) p l))) =
    dom (peerConnections (call p)) ∪
      list_to_set (id <$> List.filter (is_remote props) l).
Proof.
  revert p. induction l as [|a l IH]; intros p; simpl.
  - by rewrite (right_id_L ∅ _).
  - rewrite IH. destruct (is_remote props a) eqn:Hrem.
    + rewrite connect_remote by done. simpl.
      rewrite dom_insert_L, (comm_L _ {[id a]}), (assoc_L _). done.
    + by rewrite connect_local.
Qed.

Lemma connect_all_lookup_other (l : list CallParticipant) (p : Page) (k : string) :
  k ∉ id <$> List.filter (is_remote props) l →
  peerConnections (call (foldl (connect_own props stream) p l)) !! k = peerConnections (call p) !! k.
Proof.
  revert p. induction l as [|a l IH]; intros p Hk; simpl; [done|].
  simpl in Hk. destruct (is_remote props a) eqn:Hrem; simpl in Hk.
  - apply not_elem_of_cons in Hk as [Hne Hk].
    rewrite IH, connect_remote by done. simpl. by rewrite lookup_insert_ne.
  - rewrite connect_local by done. by apply IH.
Qed.

Lemma not_elem_of_filter_ids (l : list CallParticipant) (k : string) :
  k ∉ id <$> l → k ∉ id <$> List.filter (is_remote props) l.
Proof.
  induction l as [|a l IH]; simpl; [done|].
  intros [Hne Hk]%not_elem_of_cons.
  destruct (is_remote props a); simpl; [|by apply IH].
  apply not_elem_of_cons. split; [done|by apply IH].
Qed.

Lemma NoDup_filter_ids (l : list CallParticipant) :
  NoDup (id <$> l) → NoDup (id <$> List.filter (is_remote props) l).
Proof.
  induction l as [|a l IH]; simpl; [done|].
  intros [Hnotin Hnd]%NoDup_cons.
  destruct (is_remote props a); simpl; [|by apply IH].
  apply NoDup_cons. split; [by apply not_elem_of_filter_ids|by apply IH].
Qed.

Lemma connect_all_lookup (l : list CallParticipant) (p : Page)
    (i : nat) (participant : CallParticipant) :
  NoDup (id <$> l) →
  List.filter (is_remote props) l !! i = Some participant →
  peerConnections (call (foldl (connect_own props stream) p l)) !! id participant =
    Some (length (connections (browser p)) + i).
Proof.
  revert p i. induction l as [|a l IH]; intros p i Hnd Hi; simpl in *; [done|].
  apply NoDup_cons in Hnd as [Hnotin Hnd].
  destruct (is_remote props a) eqn:Hrem; simpl in Hi.
  - rewrite connect_remote by done. destruct i as [|j]; simpl in Hi.
    + injection Hi as <-.
      rewrite connect_all_lookup_other by (by apply not_elem_of_filter_ids).
      simpl. by rewrite lookup_insert_eq, Nat.add_0_r.
    + rewrite (IH _ j) by done. simpl.
      rewrite length_app. simpl. f_equal. lia.
  - rewrite connect_local by done. by apply IH.
Qed.

Lemma filter_remote_all (l : list CallParticipant) (me : string) :
  user props = Some me → me ∉ id <$> l → List.filter (is_remote props) l = l.
Proof.
  intros Hme. induction l as [|a l IH]; simpl; [done|].
  intros [Hne Hk]%not_elem_of_cons.
  unfold is_remote at 1. rewrite Hme, bool_decide_eq_true_2 by congruence.
  by rewrite IH.
Qed.

Lemma filter_remote_length (l : list CallParticipant) (me : string) :
  user props = Some me → NoDup (id <$> l) → me ∈ id <$> l →
  S (length (List.filter (is_remote props) l)) = length l.
Proof.
  intros Hme. induction l as [|a l IH]; simpl.
  - intros _ Hin. by apply elem_of_nil in Hin.
  - intros [Hnotin Hnd]%NoDup_cons Hin.
    unfold is_remote at 1. rewrite Hme.
    destruct (decide (id a = me)) as [Heq|Hne].
    + rewrite bool_decide_eq_false_2 by (intros Hc; apply Hc; by rewrite Heq).
      rewrite (filter_remote_all l me) by (done || by rewrite <- Heq). done.
    + rewrite bool_decide_eq_true_2 by congruence. simpl.
      apply elem_of_cons in Hin as [Heq|Hin]; [congruence|].
      by rewrite IH.
Qed.

Lemma user_not_remote (me : string) (l : list CallParticipant) :
  user props = Some me → me ∉ id <$> List.filter (is_remote props) l.
Proof.
  intros Hme Hin. apply list_elem_of_fmap in Hin as (q & -> & Hq).
  apply list_elem_of_In, filter_In in Hq as [_ Hq].
  unfold is_remote in Hq. apply bool_decide_eq_true in Hq. by rewrite Hme in Hq.
Qed.

End Roster.

Lemma initializeMedia_fulfilled_own (props : Props) (stream : MediaStream) (p : Page) :
  peerConnectionsProto (call p) = None →
  "__proto__" ∉ id <$> List.filter (is_remote props) (participants props) →
  initializeMedia_fulfilled props stream p =
    foldl (connect_own props stream) (on_call (setLocalStream (Some stream)) p)
          (participants props).
Proof.
  intros Hproto Hkey. unfold initializeMedia_fulfilled.
  by rewrite connect_all_own.
Qed.

(** Starting a session: the first event after mount that fulfils
    [getUserMedia] runs the rest of [initializeMedia] on the new stream. *)
Lemma start_session_unfold (props : Props) (now : Z) (b : Browser) :
  run props (mount props now b) [UserMediaFulfilled] =
    initializeMedia_fulfilled props (new_tracks (constraints props) b).1
      (mkPage (call (mount props now b)) (new_tracks (constraints props) b).2
              (mkPending true false [])).
Proof. done. Qed.

(** On a roster in which no remote participant's id is [__proto__], and a
    map object that still has the prototype of [{}]: a successful start
    creates a peer connection for each roster entry whose id differs from
    the local user's, in roster order, and for nothing else; its id is
    added to the keys of the map and the local user's key is left as it
    was. With distinct ids in the roster, the i-th remote participant's id
    keys the i-th new connection; and starting a session on a roster of
    three that includes the local user creates two connections, held in the
    map under the two remote ids. *)
Lemma start_connects_each_remote
    (props : Props) (stream : MediaStream) (p : Page)
    (Hproto : peerConnectionsProto (call p) = None)
    (Hkey : "__proto__" ∉ id <$> List.filter (is_remote props) (participants props)) :
  let remote := List.filter (is_remote props) (participants props) in
  let first := length (connections (browser p)) in
  let p' := initializeMedia_fulfilled props stream p in
  connections (browser p') =
    connections (browser p) ++ ((λ _, new_connection stream) <$> remote) ∧
  dom (peerConnections (call p')) =
    dom (peerConnections (call p)) ∪ list_to_set (id <$> remote) ∧
  (∀ me, user props = Some me →
     (me ∉ id <$> remote) ∧
     peerConnections (call p') !! me = peerConnections (call p) !! me) ∧
  (NoDup (id <$> participants props) →
   ∀ i participant, remote !! i = Some participant →
     peerConnections (call p') !! id participant = Some (first + i)) ∧
  (length (participants props) = 3 →
   NoDup (id <$> participants props) →
   (∃ me, user props = Some me ∧ me ∈ id <$> participants props) →
   ∀ (now : Z) (b : Browser),
     let started := run props (mount props now b) [UserMediaFulfilled] in
     length remote = 2 ∧
     length (connections (browser started)) = length (connections b) + 2 ∧
     size (peerConnections (call started)) = 2 ∧
     dom (peerConnections (call started)) = list_to_set (id <$> remote)).
Proof.
  cbv zeta. rewrite initializeMedia_fulfilled_own by done.
  set (start := on_call (setLocalStream (Some stream)) p).
  split; [apply (connect_all_connections _ _ _ start)|].
  split; [apply (connect_all_dom _ _ _ start)|].
  split.
  { intros me Hme. split; [by apply user_not_remote|].
    by rewrite (connect_all_lookup_other _ _ _ start) by (by apply user_not_remote). }
  split.
  { intros Hnd i participant Hi. by apply (connect_all_lookup _ _ _ start). }
  intros Hlen Hnd (me & Hme & Hin) now b.
  pose proof (filter_remote_length props _ me Hme Hnd Hin) as Hcount.
  rewrite Hlen in Hcount. injection Hcount as Hcount.
  rewrite start_session_unfold, initializeMedia_fulfilled_own by done.
  assert (Hdom : dom (peerConnections (call
              (foldl (connect_own props (new_tracks (constraints props) b).1)
                 (on_call (setLocalStream (Some (new_tracks (constraints props) b).1))
                    (mkPage (call (mount props now b)) (new_tracks (constraints props) b).2
                       (mkPending true false [])))
                 (participants props)))) =
            list_to_set (id <$> List.filter (is_remote props) (participants props))).
  { rewrite connect_all_dom. simpl. by rewrite dom_empty_L, (left_id_L ∅ _). }
  split; [done|]. split.
  { rewrite connect_all_connections, length_app, length_fmap, Hcount. done. }
  split; [|done].
  rewrite <- size_dom, Hdom, size_list_to_set by (by apply NoDup_filter_ids).
  by rewrite length_fmap.
Qed.

(** The running example: connection 0 is keyed by "2", connection 1 by
    "3". *)
Lemma start_connects_each_remote_example :
  peerConnections (call active_video_call) !! "2" = Some 0 ∧
  peerConnections (call active_video_call) !! "3" = Some 1 ∧
  length (connections (browser active_video_call)) = 2 ∧
  size (peerConnections (call active_video_call)) = 2.
Proof. vm_compute. repeat split. Qed.

(** C6. A remote participant whose id is [__proto__] gets a peer connection
    that no key of the map holds. On the roster "me", "__proto__", "2" with
    the local user "me", the start creates two connections, one per remote
    participant; the map has the single key "2", for connection 1;
    connection 0, made for "__proto__", has become the prototype of the map
    object, is not among the values [Object.values] lists, and is still
    open after the call has ended and [cleanup] has closed the
    connections of the map. *)
Theorem proto_participant_gets_no_key :
  let started := run proto_props (mount proto_props 0%Z blank) [UserMediaFulfilled] in
  let ended := run proto_props started [Unmount] in
  id <$> List.filter (is_remote proto_props) (participants proto_props) = ["__proto__"; "2"] ∧
  length (connections (browser started)) = 2 ∧
  size (peerConnections (call started)) = 1 ∧
  peerConnections (call started) !! "__proto__" = None ∧
  peerConnections (call started) !! "2" = Some 1 ∧
  peerConnectionsProto (call started) = Some 0 ∧
  values (peerConnections (call started)) = [1] ∧
  closed <$> connections (browser ended) = [false; true].
Proof. vm_compute. repeat split. Qed.

(** Once a connection is the prototype of the map object, a participant
    whose id names an attribute of [RTCPeerConnection] makes the assignment
    throw: the loop is left for the [catch] branch with the connection just
    made stored nowhere, and the participants after it get none. *)
Lemma attribute_key_after_proto_throws :
  let roster := [mkParticipant "me" "Me" false;
                 mkParticipant "__proto__" "Anna" false;
                 mkParticipant "connectionState" "Mikhail" false;
                 mkParticipant "4" "Olga" false] in
  let props := mkProps audioCall roster (Some "me") in
  let started := run props (mount props 0%Z blank) [UserMediaFulfilled] in
  length (connections (browser started)) = 2 ∧
  peerConnections (call started) = ∅ ∧
  console (browser started) = [ErrorMediaDevices "TypeError"] ∧
  localStream (call started) = Some [0].
Proof. vm_compute. repeat split. Qed.

(** ** The duration timer *)

(** The loop over the roster touches the map object and the connections
    only, however it ends. *)
Lemma connect_call (props : Props) (stream : MediaStream)
    (acc : Completion) (a : CallParticipant) :
  let p := completed acc in
  let p' := completed (connect props stream acc a) in
  callDuration (call p') = callDuration (call p) ∧
  callStartTime (call p') = callStartTime (call p) ∧
  localStream (call p') = localStream (call p) ∧
  pending p' = pending p.
Proof.
  destruct acc as [p|error p]; simpl; [|done].
  destruct (is_remote props a); [|done]. unfold createPeerConnection.
  match goal with |- context [assign ?k ?pc ?q] =>
    destruct (assign_cases k pc q) as [[_ ->]|[->|(_ & _ & ->)]] end; done.
Qed.

Lemma connect_all_call (props : Props) (stream : MediaStream)
    (l : list CallParticipant) (acc : Completion) :
  let p := completed acc in
  let p' := completed (foldl (connect props stream) acc l) in
  callDuration (call p') = callDuration (call p) ∧
  callStartTime (call p') = callStartTime (call p) ∧
  localStream (call p') = localStream (call p) ∧
  pending p' = pending p.
Proof.
  revert acc. induction l as [|a l IH]; intros acc; simpl; [done|].
  destruct (IH (connect props stream acc a)) as (-> & -> & -> & ->).
  apply connect_call.
Qed.

(** [initializeMedia_fulfilled] is the loop, with one more console line when
    it threw. *)
Lemma initializeMedia_fulfilled_completed (props : Props) (stream : MediaStream) (p : Page) :
  let looped := completed (foldl (connect props stream)
                             (Normal (on_call (setLocalStream (Some stream)) p))
                             (participants props)) in
  call (initializeMedia_fulfilled props stream p) = call looped ∧
  pending (initializeMedia_fulfilled props stream p) = pending looped ∧
  tracks (browser (initializeMedia_fulfilled props stream p)) = tracks (browser looped) ∧
  connections (browser (initializeMedia_fulfilled props stream p)) =
    connections (browser looped) ∧
  console (browser looped) `prefix_of`
    console (browser (initializeMedia_fulfilled props stream p)).
Proof.
  cbv zeta. unfold initializeMedia_fulfilled.
  destruct (foldl _ _ _) as [q|error q]; simpl; [done|].
  repeat split. by apply prefix_app_r.
Qed.

Lemma initializeMedia_fulfilled_call (props : Props) (stream : MediaStream) (p : Page) :
  let p' := initializeMedia_fulfilled props stream p in
  callDuration (call p') = callDuration (call p) ∧
  callStartTime (call p') = callStartTime (call p) ∧
  localStream (call p') = Some stream ∧
  pending p' = pending p.
Proof.
  cbv zeta.
  destruct (initializeMedia_fulfilled_completed props stream p) as (-> & -> & _).
  destruct (connect_all_call props stream (participants props)
              (Normal (on_call (setLocalStream (Some stream)) p))) as (-> & -> & -> & ->).
  done.
Qed.

Lemma toggleAudio_clock (p : Page) :
  callDuration (call (toggleAudio p)) = callDuration (call p) ∧
  callStartTime (call (toggleAudio p)) = callStartTime (call p) ∧
  pending (toggleAudio p) = pending p.
Proof.
  unfold toggleAudio. destruct (localStream (call p)) as [stream|]; [|done].
  destruct (getAudioTracks (browser p) stream) as [|t rest]; [done|].
  by destruct (tracks (browser p) !! t).
Qed.

Lemma toggleVideo_clock (p : Page) :
  callDuration (call (toggleVideo p)) = callDuration (call p) ∧
  callStartTime (call (toggleVideo p)) = callStartTime (call p) ∧
  pending (toggleVideo p) = pending p.
Proof.
  unfold toggleVideo. destruct (localStream (call p)) as [stream|]; [|done].
  destruct (getVideoTracks (browser p) stream) as [|t rest]; [done|].
  by destruct (tracks (browser p) !! t).
Qed.

Lemma screen_onended_clock (ls : option MediaStream) (p : Page) :
  callDuration (call (screen_onended ls p)) = callDuration (call p) ∧
  callStartTime (call (screen_onended ls p)) = callStartTime (call p) ∧
  pending (screen_onended ls p) = pending p.
Proof. unfold screen_onended. by destruct ls. Qed.

Lemma startScreenShare_fulfilled_clock (ls : option MediaStream) (s : MediaStream) (p : Page) :
  callDuration (call (startScreenShare_fulfilled ls s p)) = callDuration (call p) ∧
  callStartTime (call (startScreenShare_fulfilled ls s p)) = callStartTime (call p) ∧
  pending (startScreenShare_fulfilled ls s p) = pending p.
Proof.
  unfold startScreenShare_fulfilled.
  by destruct (head (getVideoTracks (browser p) s)).
Qed.

(** What one event does to the displayed duration, the start time and the
    mounted flag. *)
Lemma step_clock (props : Props) (p : Page) (e : Event) :
  let p' := step props p e in
  callStartTime (call p') = callStartTime (call p) ∧
  callDuration (call p') =
    match e with
    | TimerTick now =>
        if mounted (pending p)
        then elapsed_seconds now (callStartTime (call p))
        else callDuration (call p)
    | _ => callDuration (call p)
    end ∧
  mounted (pending p') =
    match e with
    | Unmount => false
    | _ => mounted (pending p)
    end.
Proof.
  destruct e; simpl.
  - destruct (mounted (pending p)) eqn:Hm; simpl; by rewrite ?Hm.
  - destruct (userMedia (pending p)); [|done].
    match goal with |- context [initializeMedia_fulfilled _ ?s ?q] =>
      destruct (initializeMedia_fulfilled_call props s q) as (-> & -> & _ & ->) end.
    done.
  - by destruct (userMedia (pending p)).
  - destruct (mounted (pending p)) eqn:Hm; [|by rewrite Hm].
    destruct (toggleAudio_clock p) as (-> & -> & ->). by rewrite Hm.
  - destruct (mounted (pending p)) eqn:Hm; simpl; [|by rewrite Hm].
    destruct (bool_decide (callType props = videoCall)); [|by rewrite Hm].
    destruct (toggleVideo_clock p) as (-> & -> & ->). by rewrite Hm.
  - destruct (mounted (pending p)) eqn:Hm; simpl; [|by rewrite Hm].
    destruct (isScreenSharing (call p)); simpl; by rewrite ?Hm.
  - destruct (mounted (pending p)) eqn:Hm; simpl; by rewrite ?Hm.
  - destruct (mounted (pending p)) eqn:Hm; simpl; by rewrite ?Hm.
  - destruct (displayMedia (pending p)) as [|captured rest]; [done|].
    match goal with |- context [startScreenShare_fulfilled ?a ?b ?q] =>
      destruct (startScreenShare_fulfilled_clock a b q) as (-> & -> & ->) end.
    done.
  - by destruct (displayMedia (pending p)).
  - destruct (tracks (browser p) !! t) as [trk|]; [|done].
    destruct (readyState trk); [|done].
    destruct (onended trk) as [captured|]; [|done].
    match goal with |- context [screen_onended ?a ?q] =>
      destruct (screen_onended_clock a q) as (-> & -> & ->) end.
    done.
  - destruct (connections (browser p) !! pc) as [c|]; [|done].
    destruct (closed c); [done|]. by destruct candidate.
  - done.
  - destruct (mounted (pending p)) eqn:Hm; [|by rewrite Hm].
    unfold unmount. by rewrite cleanup_unfold.
Qed.

Lemma elapsed_seconds_mono (start t t' : Z) :
  (t ≤ t')%Z → (elapsed_seconds t start ≤ elapsed_seconds t' start)%Z.
Proof. intros Hle. unfold elapsed_seconds. apply Z.div_le_mono; lia. Qed.

(** Once unmounted, the duration stays at its last value. *)
Lemma run_unmounted_duration (props : Props) (events : list Event) (p : Page) :
  mounted (pending p) = false →
  displayed_duration (run props p events) = displayed_duration p.
Proof.
  revert p. induction events as [|e events IH]; intros p Hm; simpl; [done|].
  destruct (step_clock props p e) as (_ & Hd & Hm').
  fold (run props (step props p e) events). rewrite IH.
  - unfold displayed_duration. rewrite Hd, Hm. by destruct e.
  - rewrite Hm', Hm. by destruct e.
Qed.

Lemma run_last_tick (props : Props) (events : list Event) (p : Page) (lo : Z) :
  mounted (pending p) = true →
  displayed_duration p = elapsed_seconds lo (callStartTime (call p)) →
  displayed_duration (run props p events) =
    elapsed_seconds (last_tick lo events) (callStartTime (call p)).
Proof.
  revert p lo. induction events as [|e events IH]; intros p lo Hm Hd; [done|].
  destruct (step_clock props p e) as (Hs & Hd' & Hm').
  change (run props p (e :: events)) with (run props (step props p e) events).
  rewrite Hm in Hd', Hm'.
  destruct e;
    try (simpl last_tick; rewrite <- Hs; apply IH;
         [by rewrite Hm' | unfold displayed_duration; by rewrite Hd', Hs]).
  simpl last_tick. rewrite run_unmounted_duration by done.
  unfold displayed_duration. by rewrite Hd'.
Qed.

Lemma readings_sorted (props : Props) (events : list Event) (p : Page) (lo : Z) :
  (displayed_duration p ≤ elapsed_seconds lo (callStartTime (call p)))%Z →
  Sorted Z.le (lo :: tick_times events) →
  Sorted Z.le (displayed_duration p :: readings props p events).
Proof.
  revert p lo. induction events as [|e events IH]; intros p lo Hd Hsorted.
  - simpl. by repeat constructor.
  - destruct (step_clock props p e) as (Hs & Hd' & _).
    simpl readings. set (q := step props p e) in *.
    assert (Hnext : ∃ lo', (displayed_duration p ≤ displayed_duration q)%Z ∧
                           (displayed_duration q ≤ elapsed_seconds lo' (callStartTime (call q)))%Z ∧
                           Sorted Z.le (lo' :: tick_times events)).
    { unfold displayed_duration in *. rewrite Hs, Hd'.
      destruct e; try (exists lo; split; [lia|done]).
      simpl in Hsorted.
      apply Sorted_inv in Hsorted as [Hsorted Hhd]. apply HdRel_inv in Hhd.
      exists now. pose proof (elapsed_seconds_mono (callStartTime (call p)) lo now Hhd).
      destruct (mounted (pending p)); split; try lia; split; (lia || done). }
    destruct Hnext as (lo' & Hle & Hd'' & Hsorted').
    constructor; [by apply (IH q lo')|by constructor].
Qed.

(** C9, as the code has it. The duration is driven by the [setInterval]
    timer: each tick recomputes it from the clock as the whole seconds
    between [Date.now()] and the recorded start (nothing is accumulated),
    and a read returns the value of the last tick that reached the mounted
    component (0 before the first), not the time elapsed at the read. When
    the clock does not run backwards from the start through the ticks, the
    durations shown along any run never decrease. *)
Theorem duration_follows_the_timer
    (props : Props) (start : Z) (b : Browser) (events : list Event)
    (Hclock : Sorted Z.le (start :: tick_times events)) :
  let p0 := mount props start b in
  (∀ (p : Page) (now : Z),
     displayed_duration (tick now p) = elapsed_seconds now (callStartTime (call p))) ∧
  displayed_duration (run props p0 events) =
    elapsed_seconds (last_tick start events) start ∧
  StronglySorted Z.le (displayed_duration p0 :: readings props p0 events).
Proof.
  cbv zeta. split; [done|]. split.
  - apply (run_last_tick props events (mount props start b) start); [done|].
    unfold elapsed_seconds. simpl. by rewrite Z.sub_diag.
  - apply Sorted_StronglySorted; [intros x y z; apply Z.le_trans|].
    apply (readings_sorted props events (mount props start b) start); [|done].
    unfold elapsed_seconds. simpl. by rewrite Z.sub_diag.
Qed.

Lemma duration_follows_the_timer_witness :
  let events := [TimerTick 1000; ClickAudio; TimerTick 2010; TimerTick 3005] in
  let p0 := mount video_props 0%Z blank in
  displayed_duration (run video_props p0 events) = 3%Z ∧
  StronglySorted Z.le (displayed_duration p0 :: readings video_props p0 events).
Proof.
  assert (Hclock : Sorted Z.le
            (0%Z :: tick_times [TimerTick 1000; ClickAudio; TimerTick 2010; TimerTick 3005])).
  { simpl. repeat constructor; lia. }
  destruct (duration_follows_the_timer video_props 0%Z blank _ Hclock) as (_ & Hlast & Hmono).
  split; [exact Hlast|exact Hmono].
Defined.

(** C9 as stated fails: the duration is not recomputed on a read. After a
    tick at 1000 ms a read at 2500 ms shows 1 second where the elapsed time
    is 2; and two histories with the same start show different durations at
    the same read time, so the value read is no function of the current
    time and the start time. *)
Lemma duration_not_recomputed_on_read :
  let p0 := mount video_props 0%Z blank in
  let one_tick := run video_props p0 [TimerTick 1000] in
  let two_ticks := run video_props p0 [TimerTick 1000; TimerTick 2000] in
  displayed_duration one_tick = 1%Z ∧
  elapsed_seconds 2500 (callStartTime (call one_tick)) = 2%Z ∧
  displayed_duration one_tick ≠ elapsed_seconds 2500 (callStartTime (call one_tick)) ∧
  callStartTime (call one_tick) = callStartTime (call two_ticks) ∧
  displayed_duration one_tick ≠ displayed_duration two_ticks.
Proof. vm_compute. repeat split; discriminate. Qed.

(** ** Screen sharing *)

Lemma find_index_Some {A} (f : A → bool) (l : list A) (i : nat) :
  find_index f l = Some i →
  ∃ x, l !! i = Some x ∧ f x = true ∧ ∀ j y, j < i → l !! j = Some y → f y = false.
Proof.
  revert i. induction l as [|a l IH]; intros i; simpl; [done|].
  destruct (f a) eqn:Hfa.
  - intros [= <-]. exists a. repeat split; [done|]. intros j y Hj. lia.
  - destruct (find_index f l) as [k|]; simpl; [|done].
    intros [= <-]. destruct (IH k eq_refl) as (x & Hx & Hfx & Hfirst).
    exists x. repeat split; [done..|].
    intros [|j] y Hj; simpl; [by intros [= <-]|].
    apply Hfirst. lia.
Qed.

Lemma insert_as_alter {A} (f : A → A) (l : list A) (i : nat) (x : A) :
  l !! i = Some x → <[i := f x]> l = alter f i l.
Proof.
  intros Hx. apply list_eq. intros j. destruct (decide (i = j)) as [<-|Hne].
  - rewrite list_lookup_insert_eq by (by eapply lookup_lt_Some).
    by rewrite list_lookup_alter_eq, Hx.
  - by rewrite list_lookup_insert_ne, list_lookup_alter_ne.
Qed.

Lemma alter_same {A} (f : A → A) (l : list A) (i : nat) :
  (∀ x, l !! i = Some x → f x = x) → alter f i l = l.
Proof.
  intros Hf. apply list_eq. intros j. destruct (decide (i = j)) as [<-|Hne].
  - rewrite list_lookup_alter_eq. destruct (l !! i) eqn:Hx; simpl; [|done].
    by rewrite Hf.
  - by rewrite list_lookup_alter_ne.
Qed.

Lemma replace_video_alter (t : option nat) (pc : nat) (b : Browser) :
  replace_video t pc b =
    set_connections (alter (replace_in b t) pc (connections b)) b.
Proof.
  unfold replace_video.
  destruct (connections b !! pc) as [c|] eqn:Hc.
  - destruct (find_index (is_video_sender b) (getSenders c)) as [i|] eqn:Hi.
    + rewrite <- (insert_as_alter _ _ _ c) by done. unfold replace_in. by rewrite Hi.
    + rewrite alter_same; [by destruct b|].
      intros x Hx. rewrite Hc in Hx. injection Hx as <-. unfold replace_in. by rewrite Hi.
  - rewrite alter_same; [by destruct b|]. intros x Hx. by rewrite Hc in Hx.
Qed.

Lemma for_each_replace_video (t : option nat) (ids : list nat) (b : Browser) :
  for_each (replace_video t) ids b =
    set_connections (foldl (λ acc pc, alter (replace_in b t) pc acc) (connections b) ids) b.
Proof.
  unfold for_each. revert b. induction ids as [|pc ids IH]; intros b; simpl.
  - by destruct b.
  - rewrite replace_video_alter, IH. done.
Qed.

(** With each connection visited once, the loop applies [f] once to each. *)
Lemma lookup_foldl_alter_NoDup {A} (f : A → A) (ids : list nat) (l : list A) (i : nat) :
  NoDup ids →
  foldl (λ acc t, alter f t acc) l ids !! i =
    if decide (i ∈ ids) then f <$> l !! i else l !! i.
Proof.
  intros Hnd. revert l. induction Hnd as [|a ids Hnotin Hnd IH]; intros l.
  - simpl foldl. case_decide as Hin; [by apply elem_of_nil in Hin|done].
  - simpl foldl. rewrite IH. destruct (decide (a = i)) as [->|Hne].
    + rewrite decide_False by done.
      by rewrite list_lookup_alter_eq, (decide_True (P := i ∈ i :: ids)) by left.
    + rewrite list_lookup_alter_ne by done.
      destruct (decide (i ∈ ids)) as [Hin|Hnin].
      * by rewrite decide_True by (by right).
      * rewrite decide_False; [done|]. rewrite elem_of_cons. intros [?|?]; congruence.
Qed.

(** The senders of a visited connection: the first video sender of an
    open connection now carries [t] and records that one call; every sender
    that carries no video track, so every audio sender, is the sender it
    was; a closed connection, or one without a video sender, is left as it
    was. *)
Lemma replace_in_senders (b : Browser) (t : option nat) (c : RTCPeerConnection) :
  closed (replace_in b t c) = closed c ∧
  (∀ j s, senders c !! j = Some s → is_video_sender b s = false →
          senders (replace_in b t c) !! j = Some s) ∧
  match find_index (is_video_sender b) (getSenders c) with
  | Some i =>
      ∃ s, senders c !! i = Some s ∧
           senders (replace_in b t c) = <[i := mkSender t (t :: replaced s)]> (senders c)
  | None => replace_in b t c = c
  end.
Proof.
  unfold replace_in.
  destruct (find_index (is_video_sender b) (getSenders c)) as [i|] eqn:Hi; [|done].
  destruct (find_index_Some _ _ _ Hi) as (s & Hs & Hvideo & _).
  unfold getSenders in Hs. destruct (closed c) eqn:Hclosed; [done|].
  split; [done|]. split.
  - intros j s' Hj Haudio. simpl.
    rewrite list_lookup_alter_ne; [done|]. intros <-. congruence.
  - exists s. split; [done|]. simpl. by rewrite <- (insert_as_alter _ _ _ s).
Qed.

(** When the share was started from a render that held the local stream,
    its end puts the camera track back on the first video sender of every
    connection in the map, by one [replaceTrack] call each (see
    [replace_in_senders]), and touches nothing else in the browser. *)
Lemma screen_onended_restores_camera (p : Page) (stream : MediaStream) (camera : nat) :
  head (getVideoTracks (browser p) stream) = Some camera →
  NoDup (values (peerConnections (call p))) →
  let p' := screen_onended (Some stream) p in
  isScreenSharing (call p') = false ∧
  tracks (browser p') = tracks (browser p) ∧
  ∀ pc, connections (browser p') !! pc =
        if decide (pc ∈ values (peerConnections (call p)))
        then replace_in (browser p) (Some camera) <$> connections (browser p) !! pc
        else connections (browser p) !! pc.
Proof.
  intros Hcamera Hnd. unfold screen_onended. simpl. rewrite Hcamera.
  change (restore_video (Some camera)) with (replace_video (Some camera)).
  rewrite for_each_replace_video. simpl. repeat split.
  intros pc. by apply lookup_foldl_alter_NoDup.
Qed.

(** The usual order: the media is acquired, then the screen is shared, then
    the share ends. Both connections send the camera track 1 again, after
    two [replaceTrack] calls on the video sender (screen track 2, then
    camera), and the audio senders never saw a call. *)
Lemma screen_share_restored_after_acquisition :
  let p := run video_props (mount video_props 0%Z blank)
             [UserMediaFulfilled; ClickScreenShare; DisplayMediaFulfilled false;
              TrackEnded 2] in
  senders <$> connections (browser p) =
    [[mkSender (Some 0) []; mkSender (Some 1) [Some 1; Some 2]];
     [mkSender (Some 0) []; mkSender (Some 1) [Some 1; Some 2]]] ∧
  isScreenSharing (call p) = false.
Proof. vm_compute. done. Qed.

(** C7. A share requested while [getUserMedia] is still pending captures
    the [null] stream of that render. The media then arrives, the share
    starts and replaces the camera track 1 by the screen track 2 on the
    video sender of both connections; when the screen track ends, the
    handler finds no stream and restores nothing: both connections still
    send the ended screen track. *)
Theorem screen_share_end_not_restored :
  let shared := run video_props (mount video_props 0%Z blank)
                  [ClickScreenShare; UserMediaFulfilled; DisplayMediaFulfilled false] in
  let finished := run video_props shared [TrackEnded 2] in
  (localStream (call shared) = Some [0; 1] ∧
   getVideoTracks (browser shared) [0; 1] = [1] ∧
   onended <$> tracks (browser shared) !! 2 = Some (Some None) ∧
   isScreenSharing (call shared) = true ∧
   size (peerConnections (call shared)) = 2) ∧
  (isScreenSharing (call finished) = false ∧
   readyState <$> tracks (browser finished) !! 2 = Some ended ∧
   senders <$> connections (browser finished) =
     [[mkSender (Some 0) []; mkSender (Some 2) [Some 2]];
      [mkSender (Some 0) []; mkSender (Some 2) [Some 2]]]).
Proof. vm_compute. done. Qed.

(** * Further properties of the code *)

(** ** The two toggles together *)

Lemma head_filter_has_kind (b : Browser) (k : TrackKind) (stream : MediaStream) (t : nat) :
  head (List.filter (has_kind b k) stream) = Some t →
  ∃ trk, tracks b !! t = Some trk ∧ kind trk = k.
Proof.
  induction stream as [|a stream IH]; simpl; [done|].
  destruct (has_kind b k a) eqn:Hk; [|done].
  simpl. intros [= <-]. unfold has_kind in Hk.
  destruct (tracks b !! a) as [trk|]; [|done].
  exists trk. split; [done|]. by apply bool_decide_eq_true in Hk.
Qed.

(** One [toggleVideo] on a stream whose first video track is [t]. *)
Lemma toggleVideo_flip (p : Page) (stream : MediaStream) (t : nat) (trk : MediaStreamTrack) :
  localStream (call p) = Some stream →
  head (getVideoTracks (browser p) stream) = Some t →
  tracks (browser p) !! t = Some trk →
  toggleVideo p =
    on_call (setIsVideoEnabled (negb (enabled trk)))
      (on_browser
         (λ b, set_tracks (<[t := set_enabled (negb (enabled trk)) trk]> (tracks b)) b) p).
Proof.
  intros Hs Ht Hl. unfold toggleVideo. rewrite Hs.
  destruct (getVideoTracks (browser p) stream) as [|t' rest]; [done|].
  simpl in Ht. injection Ht as ->. by rewrite Hl.
Qed.

Lemma toggleVideo_iter (p : Page) (stream : MediaStream) (t : nat) (n : nat) :
  localStream (call p) = Some stream →
  head (getVideoTracks (browser p) stream) = Some t →
  enabled <$> tracks (browser p) !! t = Some true →
  isVideoEnabled (call p) = true →
  let p' := Nat.iter n toggleVideo p in
  localStream (call p') = Some stream ∧
  kind <$> tracks (browser p') = kind <$> tracks (browser p) ∧
  readyState <$> tracks (browser p') = readyState <$> tracks (browser p) ∧
  enabled <$> tracks (browser p') !! t = Some (Nat.even n) ∧
  isVideoEnabled (call p') = Nat.even n ∧
  isAudioEnabled (call p') = isAudioEnabled (call p).
Proof.
  intros Hs Ht Hen Hrep. induction n as [|n IH].
  - simpl. done.
  - destruct IH as (IHs & IHk & IHr & IHe & IHv & IHa).
    change (Nat.iter (S n) toggleVideo p) with (toggleVideo (Nat.iter n toggleVideo p)).
    set (q := Nat.iter n toggleVideo p) in *. cbv zeta.
    destruct (tracks (browser q) !! t) as [trk|] eqn:Hl; [|done].
    simpl in IHe. injection IHe as IHe.
    assert (Hq : head (getVideoTracks (browser q) stream) = Some t).
    { unfold getVideoTracks in *. by rewrite (filter_has_kind_fmap _ _ _ _ IHk). }
    rewrite (toggleVideo_flip q stream t trk IHs Hq Hl). simpl.
    rewrite (fmap_insert_same kind _ t trk) by done.
    rewrite (fmap_insert_same readyState _ t trk) by done.
    rewrite list_lookup_insert_eq by (by eapply lookup_lt_Some).
    simpl. change (match n with 0 => false | S n' => Nat.even n' end) with (Nat.even (S n)).
    rewrite IHe, Nat.even_succ, <- Nat.negb_even. done.
Qed.

(** X1. For a local stream whose first video track is enabled (the video
    button showing "enabled"), after [n] calls of [toggleVideo] the track
    is enabled exactly when [n] is even, the button reports the track's
    flag, no track has been stopped, and the audio button is as it was. *)
Theorem toggleVideo_parity
    (p : Page) (stream : MediaStream) (t : nat) (n : nat)
    (Hstream : localStream (call p) = Some stream)
    (Hfirst : head (getVideoTracks (browser p) stream) = Some t)
    (Henabled : enabled <$> tracks (browser p) !! t = Some true)
    (Hreported : isVideoEnabled (call p) = true) :
  let p' := Nat.iter n toggleVideo p in
  enabled <$> tracks (browser p') !! t = Some (Nat.even n) ∧
  Some (isVideoEnabled (call p')) = enabled <$> tracks (browser p') !! t ∧
  readyState <$> tracks (browser p') = readyState <$> tracks (browser p) ∧
  isAudioEnabled (call p') = isAudioEnabled (call p).
Proof.
  destruct (toggleVideo_iter p stream t n Hstream Hfirst Henabled Hreported)
    as (_ & _ & Hr & He & Hv & Ha).
  cbv zeta. rewrite He, Hv. done.
Qed.

Lemma toggleVideo_parity_witness :
  let p' := Nat.iter 5 toggleVideo active_video_call in
  enabled <$> tracks (browser p') !! 1 = Some false ∧
  Some (isVideoEnabled (call p')) = enabled <$> tracks (browser p') !! 1 ∧
  readyState <$> tracks (browser p') = [live; live] ∧
  isAudioEnabled (call p') = true.
Proof.
  exact (toggleVideo_parity active_video_call [0; 1] 1 5
           eq_refl eq_refl eq_refl eq_refl).
Defined.

(** What a toggle does, in one of two shapes. *)
Lemma toggleAudio_cases (p : Page) :
  toggleAudio p = p ∨
  ∃ stream t trk,
    localStream (call p) = Some stream ∧
    head (getAudioTracks (browser p) stream) = Some t ∧
    tracks (browser p) !! t = Some trk ∧ kind trk = audio.
Proof.
  unfold toggleAudio. destruct (localStream (call p)) as [stream|]; [|by left].
  destruct (getAudioTracks (browser p) stream) as [|t rest] eqn:Ha; [by left|].
  destruct (head_filter_has_kind (browser p) audio stream t) as (trk & Hl & Hk).
  { unfold getAudioTracks in Ha. by rewrite Ha. }
  right. exists stream, t, trk. by rewrite Ha.
Qed.

Lemma toggleVideo_cases (p : Page) :
  toggleVideo p = p ∨
  ∃ stream t trk,
    localStream (call p) = Some stream ∧
    head (getVideoTracks (browser p) stream) = Some t ∧
    tracks (browser p) !! t = Some trk ∧ kind trk = video.
Proof.
  unfold toggleVideo. destruct (localStream (call p)) as [stream|]; [|by left].
  destruct (getVideoTracks (browser p) stream) as [|t rest] eqn:Ha; [by left|].
  destruct (head_filter_has_kind (browser p) video stream t) as (trk & Hl & Hk).
  { unfold getVideoTracks in Ha. by rewrite Ha. }
  right. exists stream, t, trk. by rewrite Ha.
Qed.

Lemma toggleAudio_noop_fmap (p q : Page) :
  localStream (call q) = localStream (call p) →
  kind <$> tracks (browser q) = kind <$> tracks (browser p) →
  toggleAudio p = p → toggleAudio q = q.
Proof.
  intros Hs Hk. unfold toggleAudio, getAudioTracks. rewrite Hs.
  destruct (localStream (call p)) as [stream|]; [|done].
  rewrite (filter_has_kind_fmap _ _ _ _ Hk).
  destruct (List.filter (has_kind (browser p) audio) stream) as [|t rest] eqn:Ha; [done|].
  destruct (head_filter_has_kind (browser p) audio stream t) as (trk & Hl & _);
    [by rewrite Ha|].
  rewrite Hl. intros Heq. exfalso.
  apply (f_equal (λ x, enabled <$> tracks (browser x) !! t)) in Heq. simpl in Heq.
  rewrite list_lookup_insert_eq, Hl in Heq by (by eapply lookup_lt_Some).
  simpl in Heq. by destruct (enabled trk).
Qed.

Lemma toggleVideo_noop_fmap (p q : Page) :
  localStream (call q) = localStream (call p) →
  kind <$> tracks (browser q) = kind <$> tracks (browser p) →
  toggleVideo p = p → toggleVideo q = q.
Proof.
  intros Hs Hk. unfold toggleVideo, getVideoTracks. rewrite Hs.
  destruct (localStream (call p)) as [stream|]; [|done].
  rewrite (filter_has_kind_fmap _ _ _ _ Hk).
  destruct (List.filter (has_kind (browser p) video) stream) as [|t rest] eqn:Ha; [done|].
  destruct (head_filter_has_kind (browser p) video stream t) as (trk & Hl & _);
    [by rewrite Ha|].
  rewrite Hl. intros Heq. exfalso.
  apply (f_equal (λ x, enabled <$> tracks (browser x) !! t)) in Heq. simpl in Heq.
  rewrite list_lookup_insert_eq, Hl in Heq by (by eapply lookup_lt_Some).
  simpl in Heq. by destruct (enabled trk).
Qed.

(** X2. The microphone and camera buttons are independent: pressed in
    either order they leave the same page, on every page (with or without
    a stream, with or without tracks of either kind). *)
Theorem toggles_commute (p : Page) :
  toggleAudio (toggleVideo p) = toggleVideo (toggleAudio p).
Proof.
  destruct (toggleVideo_cases p) as [Hv|(stream & tv & trkv & Hs & Hhv & Hlv & Hkv)].
  { rewrite Hv. destruct (toggleAudio_cases p) as [Ha|(stream & ta & trka & Hs & Hha & Hla & _)].
    - by rewrite Ha, Hv.
    - symmetry. apply (toggleVideo_noop_fmap p); [| |done].
      + by rewrite (toggleAudio_flip p stream ta trka).
      + rewrite (toggleAudio_flip p stream ta trka) by done. simpl.
        by apply (fmap_insert_same kind _ ta trka). }
  destruct (toggleAudio_cases p) as [Ha|(stream' & ta & trka & Hs' & Hha & Hla & Hka)].
  { rewrite Ha. apply (toggleAudio_noop_fmap p); [| |done].
    - by rewrite (toggleVideo_flip p stream tv trkv).
    - rewrite (toggleVideo_flip p stream tv trkv) by done. simpl.
      by apply (fmap_insert_same kind _ tv trkv). }
  rewrite Hs in Hs'. injection Hs' as <-.
  assert (Hne : ta ≠ tv) by (intros ->; congruence).
  rewrite (toggleVideo_flip p stream tv trkv), (toggleAudio_flip p stream ta trka) by done.
  rewrite (toggleAudio_flip _ stream ta trka); simpl; [| done | |].
  - rewrite (toggleVideo_flip _ stream tv trkv); simpl; [| done | |].
    + unfold on_call, on_browser, set_tracks. simpl. do 2 f_equal.
      by apply list_insert_insert_ne.
    + unfold getVideoTracks in *.
      rewrite (filter_has_kind_fmap (browser p)); [done|]. simpl.
      by apply (fmap_insert_same kind _ ta trka).
    + by rewrite list_lookup_insert_ne.
  - unfold getAudioTracks in *.
    rewrite (filter_has_kind_fmap (browser p)); [done|]. simpl.
    by apply (fmap_insert_same kind _ tv trkv).
  - by rewrite list_lookup_insert_ne.
Qed.

(** ** What a render shows *)

(** X3. For a call shorter than 100 minutes the duration is displayed as
    five characters with the colon in the middle, and two different
    durations are never displayed alike. *)
Theorem formatDuration_under_100_minutes
    (s s' : Z) (Hs : (0 ≤ s < 6000)%Z) (Hs' : (0 ≤ s' < 6000)%Z) :
  String.length (formatDuration s) = 5 ∧
  String.get 2 (formatDuration s) = Some ":"%char ∧
  (formatDuration s = formatDuration s' → s = s').
Proof.
  set (digit := λ c : ascii, (Z.of_nat (nat_of_ascii c) - 48)%Z).
  set (read := λ str : string,
         match str with
         | String a (String b (String _ (String c (String d EmptyString)))) =>
             (600 * digit a + 60 * digit b + 10 * digit c + digit d)%Z
         | _ => (-1)%Z
         end).
  set (good := λ n : nat,
         let shown := formatDuration (Z.of_nat n) in
         Nat.eqb (String.length shown) 5 &&
         bool_decide (String.get 2 shown = Some ":"%char) &&
         Z.eqb (read shown) (Z.of_nat n)).
  assert (Hall : forallb good (seq 0 (Z.to_nat 6000)) = true) by (vm_compute; reflexivity).
  assert (Hgood : ∀ x : Z, (0 ≤ x < 6000)%Z →
            String.length (formatDuration x) = 5 ∧
            String.get 2 (formatDuration x) = Some ":"%char ∧
            read (formatDuration x) = x).
  { intros x Hx. rewrite forallb_forall in Hall.
    specialize (Hall (Z.to_nat x)). unfold good in Hall. cbv zeta in Hall.
    rewrite Z2Nat.id in Hall by lia.
    assert (Hin : In (Z.to_nat x) (seq 0 (Z.to_nat 6000))) by (apply in_seq; lia).
    apply Hall in Hin. apply andb_prop in Hin as [Hin Hread].
    apply andb_prop in Hin as [Hlen Hcolon].
    split; [by apply Nat.eqb_eq|]. split; [by apply bool_decide_eq_true in Hcolon|].
    by apply Z.eqb_eq. }
  destruct (Hgood s Hs) as (Hlen & Hcolon & Hread).
  destruct (Hgood s' Hs') as (_ & _ & Hread').
  split; [done|]. split; [done|].
  intros Heq. rewrite <- Hread, <- Hread'. by rewrite Heq.
Qed.

Lemma formatDuration_under_100_minutes_witness :
  String.length (formatDuration 75) = 5 ∧
  String.get 2 (formatDuration 75) = Some ":"%char ∧
  (formatDuration 75 = formatDuration 5999 → 75%Z = 5999%Z).
Proof.
  apply (formatDuration_under_100_minutes 75 5999); lia.
Defined.

(** X4. The call screen and the call history show the same duration in the
    same way exactly from 10 minutes up to an hour: below, the call screen
    pads the minutes and the history does not; from an hour on, the
    history shows hours. *)
Theorem formatDuration_agreement (s : Z) (Hs : (0 ≤ s < 6000)%Z) :
  CallManager.formatDuration s = formatDuration s ↔ (600 ≤ s < 3600)%Z.
Proof.
  set (good := λ n : nat,
         bool_decide
           (bool_decide (CallManager.formatDuration (Z.of_nat n) = formatDuration (Z.of_nat n)) =
            (Z.leb 600 (Z.of_nat n) && Z.ltb (Z.of_nat n) 3600))).
  assert (Hall : forallb good (seq 0 (Z.to_nat 6000)) = true) by (vm_compute; reflexivity).
  rewrite forallb_forall in Hall. specialize (Hall (Z.to_nat s)).
  unfold good in Hall. rewrite Z2Nat.id in Hall by lia.
  assert (Hin : In (Z.to_nat s) (seq 0 (Z.to_nat 6000))) by (apply in_seq; lia).
  apply Hall, bool_decide_eq_true in Hin.
  split.
  - intros Heq. rewrite bool_decide_eq_true_2 in Hin by done.
    symmetry in Hin. apply andb_prop in Hin as [H1 H2].
    apply Z.leb_le in H1. apply Z.ltb_lt in H2. lia.
  - intros [H1 H2]. apply Z.leb_le in H1. apply Z.ltb_lt in H2.
    rewrite H1, H2 in Hin. by apply bool_decide_eq_true in Hin.
Qed.

Lemma formatDuration_agreement_witness :
  CallManager.formatDuration 1245 = formatDuration 1245 ↔ (600 ≤ 1245 < 3600)%Z.
Proof. apply (formatDuration_agreement 1245). lia. Defined.

(** X5. The participant shown in the main view is never the local user
    and belongs to the roster; it is someone who speaks whenever any
    remote participant speaks; and nobody is shown exactly when the roster
    holds no remote participant. *)
Theorem getMainParticipant_remote (props : Props) :
  (∀ shown, getMainParticipant props = Some shown →
     In shown (participants props) ∧
     Some (id shown) ≠ user props ∧
     (isSpeaking shown = false →
      ∀ q, In q (participants props) → Some (id q) ≠ user props → isSpeaking q = false)) ∧
  (getMainParticipant props = None ↔
   ∀ q, In q (participants props) → Some (id q) = user props).
Proof.
  unfold getMainParticipant.
  destruct (List.find (λ p, isSpeaking p && is_remote props p) (participants props))
    as [sp|] eqn:Hsp.
  - apply find_some in Hsp as [Hin Hsp]. apply andb_prop in Hsp as [Hspeak Hrem].
    apply bool_decide_eq_true in Hrem. split.
    + intros shown [= <-]. repeat split; [done..|]. congruence.
    + split; [done|]. intros Hall. by apply Hall in Hin.
  - pose proof (find_none _ _ Hsp) as Hquiet. split.
    + intros shown Hshown. apply find_some in Hshown as [Hin Hrem].
      apply bool_decide_eq_true in Hrem. repeat split; [done..|].
      intros _ q Hq Hqrem. specialize (Hquiet q Hq). simpl in Hquiet.
      unfold is_remote in Hquiet. rewrite bool_decide_eq_true_2 in Hquiet by done.
      by rewrite andb_true_r in Hquiet.
    + split.
      * intros Hnone q Hq. pose proof (find_none _ _ Hnone q Hq) as Hq'.
        unfold is_remote in Hq'. apply bool_decide_eq_false in Hq'.
        destruct (decide (Some (id q) = user props)); [done|by destruct Hq'].
      * intros Hall.
        destruct (List.find (is_remote props) (participants props)) as [q|] eqn:Hq; [|done].
        apply find_some in Hq as [Hin Hrem]. apply bool_decide_eq_true in Hrem.
        by destruct Hrem; apply Hall.
Qed.

Lemma getMainParticipant_remote_witness :
  In (mkParticipant "2" "Anna" false) (participants video_props) ∧
  Some "2" ≠ user video_props.
Proof.
  destruct (getMainParticipant_remote video_props) as [Hshown _].
  destruct (Hshown (mkParticipant "2" "Anna" false) eq_refl) as (Hin & Hrem & _).
  split; [exact Hin|exact Hrem].
Defined.

(** ** The call history *)

Lemma string_app_empty_r (s : string) : s +:+ "" = s.
Proof.
  induction s as [|c s IH]; [done|].
  change (String c s +:+ "") with (String c (s +:+ "")). by rewrite IH.
Qed.

(** X6. [getParticipantNames] fails exactly on a call without
    participants; otherwise what it returns starts with the name of the
    first participant. *)
Theorem getParticipantNames_first (l : list CallManager.Participant) :
  (CallManager.getParticipantNames l = None ↔ l = []) ∧
  (∀ first rest, l = first :: rest →
     ∃ more, CallManager.getParticipantNames l = Some (CallManager.name first +:+ more)).
Proof.
  unfold CallManager.getParticipantNames. split.
  - destruct l as [|a [|b [|c l]]]; simpl; split; done.
  - intros first rest ->. destruct rest as [|b [|c l]]; simpl.
    + exists "". by rewrite string_app_empty_r.
    + by eexists.
    + by eexists.
Qed.

Lemma getParticipantNames_first_witness :
  ∃ more, CallManager.getParticipantNames
            [CallManager.mkParticipant "5" "A"; CallManager.mkParticipant "6" "B";
             CallManager.mkParticipant "7" "C"] = Some ("A" +:+ more).
Proof.
  exact (proj2 (getParticipantNames_first _) (CallManager.mkParticipant "5" "A") _ eq_refl).
Defined.

Lemma group_call_lookup (dateKey : string → string)
    (groups : gmap string (list CallManager.CallRecord))
    (c : CallManager.CallRecord) (date : string) :
  CallManager.group_call dateKey groups c !! date =
    if decide (dateKey (CallManager.startTime c) = date)
    then Some (default [] (groups !! date) ++ [c])
    else groups !! date.
Proof.
  unfold CallManager.group_call. case_decide as Hd.
  - rewrite Hd, lookup_alter_eq. destruct (groups !! date) as [l|] eqn:Hg; simpl.
    + by rewrite Hg.
    + by rewrite lookup_insert_eq.
  - rewrite lookup_alter_ne by done.
    destruct (groups !! dateKey (CallManager.startTime c)); [done|].
    by rewrite lookup_insert_ne.
Qed.

Lemma group_call_fold_lookup (dateKey : string → string)
    (calls : list CallManager.CallRecord)
    (groups : gmap string (list CallManager.CallRecord)) (date : string) :
  foldl (CallManager.group_call dateKey) groups calls !! date =
    match List.filter (λ c, bool_decide (dateKey (CallManager.startTime c) = date)) calls with
    | [] => groups !! date
    | l => Some (default [] (groups !! date) ++ l)
    end.
Proof.
  revert groups. induction calls as [|c calls IH]; intros groups; simpl; [done|].
  rewrite IH, group_call_lookup. case_decide as Hd.
  - rewrite bool_decide_eq_true_2 by done. simpl.
    destruct (List.filter _ calls); [done|]. by rewrite <- app_assoc.
  - by rewrite bool_decide_eq_false_2 by done.
Qed.

(** X7. In the grouped call history the group of a day holds exactly the
    calls of that day, in the order of the history; a day without calls has
    no group. *)
Theorem groupedCalls_lookup (dateKey : string → string)
    (callHistory : list CallManager.CallRecord) (date : string) :
  CallManager.groupedCalls dateKey callHistory !! date =
    match List.filter (λ c, bool_decide (dateKey (CallManager.startTime c) = date))
                      callHistory with
    | [] => None
    | l => Some l
    end.
Proof.
  unfold CallManager.groupedCalls. rewrite group_call_fold_lookup.
  by rewrite lookup_empty.
Qed.

(** ** Selecting users for a new chat *)

Lemma elem_of_filter_ne (u : string) (l : list string) (v : string) :
  v ∈ List.filter (λ x, bool_decide (x ≠ u)) l ↔ v ∈ l ∧ v ≠ u.
Proof.
  rewrite !list_elem_of_In, filter_In. split.
  - intros [Hin Hne]. by apply bool_decide_eq_true in Hne.
  - intros [Hin Hne]. split; [done|]. by apply bool_decide_eq_true.
Qed.

Lemma NoDup_filter_ne (u : string) (l : list string) :
  NoDup l → NoDup (List.filter (λ x, bool_decide (x ≠ u)) l).
Proof.
  induction 1 as [|a l Hnotin Hnd IH]; simpl; [constructor|].
  destruct (bool_decide (a ≠ u)); [|done].
  constructor; [|done]. rewrite elem_of_filter_ne. by intros [Hin _].
Qed.

Lemma filter_ne_absent (u : string) (l : list string) :
  u ∉ l → List.filter (λ x, bool_decide (x ≠ u)) l = l.
Proof.
  induction l as [|a l IH]; simpl; [done|].
  intros [Hne Hnotin]%not_elem_of_cons.
  rewrite bool_decide_eq_true_2 by done. by rewrite IH.
Qed.

Lemma handleUserToggle_elem (u v : string) (prev : list string) :
  v ∈ NewChat.handleUserToggle u prev ↔ (if decide (v = u) then u ∉ prev else v ∈ prev).
Proof.
  unfold NewChat.handleUserToggle. case_bool_decide as Hin.
  - rewrite elem_of_filter_ne. destruct (decide (v = u)) as [->|Hv].
    + split; [by intros [_ Hne]|done].
    + split; [by intros [Hv' _]|done].
  - rewrite elem_of_app, list_elem_of_singleton. destruct (decide (v = u)) as [->|Hv].
    + split; [done|by right].
    + split; [by intros [Hv'|Hv']|by left].
Qed.

Lemma handleUserToggle_NoDup (u : string) (prev : list string) :
  NoDup prev → NoDup (NewChat.handleUserToggle u prev).
Proof.
  intros Hnd. unfold NewChat.handleUserToggle. case_bool_decide as Hin.
  - by apply NoDup_filter_ne.
  - apply NoDup_app. split; [done|]. split; [|apply NoDup_singleton].
    intros x Hx ->%list_elem_of_singleton. done.
Qed.

Lemma handleUserToggle_run (toggled : list string) (prev : list string) (u : string) :
  NoDup prev →
  let selected := foldl (λ acc x, NewChat.handleUserToggle x acc) prev toggled in
  NoDup selected ∧
  bool_decide (u ∈ selected) =
    xorb (bool_decide (u ∈ prev))
         (Nat.odd (length (List.filter (λ x, bool_decide (x = u)) toggled))).
Proof.
  revert prev. induction toggled as [|x toggled IH]; intros prev Hnd; simpl.
  - split; [done|]. by rewrite xorb_false_r.
  - destruct (IH (NewChat.handleUserToggle x prev) (handleUserToggle_NoDup x prev Hnd))
      as [Hnd' Hmem].
    split; [done|]. rewrite Hmem.
    assert (Hstep : bool_decide (u ∈ NewChat.handleUserToggle x prev) =
                    xorb (bool_decide (u ∈ prev)) (bool_decide (x = u))).
    { destruct (decide (x = u)) as [->|Hne].
      - rewrite (bool_decide_eq_true_2 (u = u)) by done. rewrite xorb_true_r.
        destruct (decide (u ∈ prev)) as [Hin|Hnotin].
        + rewrite (bool_decide_eq_true_2 (u ∈ prev)) by done.
          apply bool_decide_eq_false_2. rewrite handleUserToggle_elem.
          rewrite decide_True by done. by intros Hc.
        + rewrite (bool_decide_eq_false_2 (u ∈ prev)) by done.
          apply bool_decide_eq_true_2. rewrite handleUserToggle_elem.
          by rewrite decide_True by done.
      - rewrite (bool_decide_eq_false_2 (x = u)) by done. rewrite xorb_false_r.
        apply bool_decide_ext. rewrite handleUserToggle_elem.
        by rewrite decide_False by congruence. }
    rewrite Hstep. destruct (bool_decide (x = u)); simpl length.
    + rewrite Nat.odd_succ, <- Nat.negb_odd.
      by destruct (bool_decide (u ∈ prev)), (Nat.odd _).
    + by rewrite xorb_false_r.
Qed.

(** X8. Whatever users are toggled, in whatever order, starting from the
    empty selection: the selection never holds a user twice, and a user is
    selected exactly when toggled an odd number of times. *)
Theorem handleUserToggle_selection (toggled : list string) (u : string) :
  let selected := foldl (λ acc x, NewChat.handleUserToggle x acc) [] toggled in
  NoDup selected ∧
  (u ∈ selected ↔
   Nat.odd (length (List.filter (λ x, bool_decide (x = u)) toggled)) = true).
Proof.
  destruct (handleUserToggle_run toggled [] u (NoDup_nil_2)) as [Hnd Hmem].
  cbv zeta in *. split; [done|].
  rewrite (bool_decide_eq_false_2 (u ∈ [])) in Hmem by apply not_elem_of_nil.
  simpl in Hmem. rewrite <- Hmem. symmetry. apply bool_decide_eq_true.
Qed.

(** X9. Selecting a user who is not selected and deselecting them again
    restores the selection as it was, order included. *)
Theorem handleUserToggle_undo (u : string) (prev : list string) (Hnew : u ∉ prev) :
  NewChat.handleUserToggle u (NewChat.handleUserToggle u prev) = prev.
Proof.
  unfold NewChat.handleUserToggle at 2. rewrite bool_decide_eq_false_2 by done.
  unfold NewChat.handleUserToggle.
  rewrite bool_decide_eq_true_2 by (apply elem_of_app; right; by left).
  rewrite List.filter_app, filter_ne_absent by done. simpl.
  rewrite bool_decide_eq_false_2 by (by intros []). apply app_nil_r.
Qed.

Lemma handleUserToggle_undo_witness :
  NewChat.handleUserToggle "c" (NewChat.handleUserToggle "c" ["a"; "b"]) = ["a"; "b"].
Proof.
  apply (handleUserToggle_undo "c" ["a"; "b"]).
  apply not_elem_of_cons. split; [done|].
  apply not_elem_of_cons. split; [done|apply not_elem_of_nil].
Defined.

(** ** The message list *)

(** X10. Deleting a message leaves no message with its id and keeps every
    other message; deleting a message that was just appended, when no
    earlier message has its id, restores the list; deleting again changes
    nothing. *)
Theorem remove_message_exact (messageId : string) (prev : list ChatWindow.Message) :
  (∀ m, In m (ChatWindow.remove_message messageId prev) ↔
        In m prev ∧ ChatWindow.id m ≠ messageId) ∧
  ChatWindow.remove_message messageId (ChatWindow.remove_message messageId prev) =
    ChatWindow.remove_message messageId prev ∧
  (∀ m, ChatWindow.id m = messageId →
        messageId ∉ ChatWindow.id <$> prev →
        ChatWindow.remove_message messageId (ChatWindow.append_message m prev) = prev).
Proof.
  unfold ChatWindow.remove_message, ChatWindow.append_message.
  assert (Habsent : ∀ l : list ChatWindow.Message,
            messageId ∉ ChatWindow.id <$> l →
            List.filter (λ msg, bool_decide (ChatWindow.id msg ≠ messageId)) l = l).
  { induction l as [|a l IH]; simpl; [done|].
    intros [Hne Hnotin]%not_elem_of_cons.
    rewrite bool_decide_eq_true_2 by done. by rewrite IH. }
  split; [|split].
  - intros m. rewrite filter_In. split.
    + intros [Hin Hne]. by apply bool_decide_eq_true in Hne.
    + intros [Hin Hne]. split; [done|]. by apply bool_decide_eq_true.
  - induction prev as [|a l IH]; simpl; [done|].
    case_bool_decide as Ha; simpl; [|done].
    rewrite bool_decide_eq_true_2 by done. by rewrite IH.
  - intros m Hid Hnotin. rewrite List.filter_app, Habsent by done. simpl.
    rewrite bool_decide_eq_false_2 by (by intros []). apply app_nil_r.
Qed.

Lemma remove_message_exact_witness :
  ChatWindow.remove_message "m2"
    (ChatWindow.append_message (ChatWindow.mkMessage "m2" "me" "hello")
       [ChatWindow.mkMessage "m1" "2" "hi"]) = [ChatWindow.mkMessage "m1" "2" "hi"].
Proof.
  apply (proj2 (proj2 (remove_message_exact "m2" [ChatWindow.mkMessage "m1" "2" "hi"])));
    [reflexivity|].
  simpl. apply not_elem_of_cons. split; [done|apply not_elem_of_nil].
Defined.

(** ** The repeat button of the music player *)

Lemma toggleRepeat_three (m : MusicPlayer.RepeatMode) :
  MusicPlayer.toggleRepeat (MusicPlayer.toggleRepeat (MusicPlayer.toggleRepeat m)) = m.
Proof. by destruct m. Qed.

Lemma toggleRepeat_multiple (q : nat) (m : MusicPlayer.RepeatMode) :
  Nat.iter (3 * q) MusicPlayer.toggleRepeat m = m.
Proof.
  induction q as [|q IH]; [done|].
  replace (3 * S q) with (3 + 3 * q) by lia.
  rewrite Nat.iter_add, IH. apply toggleRepeat_three.
Qed.

(** X11. The repeat button cycles through its three modes: pressed [n]
    times it is back on the mode it started from exactly when [n] is a
    multiple of three. *)
Theorem toggleRepeat_period (m : MusicPlayer.RepeatMode) (n : nat) :
  Nat.iter n MusicPlayer.toggleRepeat m = m ↔ n mod 3 = 0.
Proof.
  assert (Hiter : Nat.iter n MusicPlayer.toggleRepeat m =
                  Nat.iter (n mod 3) MusicPlayer.toggleRepeat m).
  { pose proof (Nat.div_mod_eq n 3) as Hn.
    transitivity (Nat.iter (n mod 3 + 3 * (n / 3)) MusicPlayer.toggleRepeat m);
      [f_equal; lia|].
    by rewrite Nat.iter_add, toggleRepeat_multiple. }
  rewrite Hiter.
  pose proof (Nat.mod_upper_bound n 3 ltac:(lia)) as Hlt.
  destruct (n mod 3) as [|[|[|r]]]; [done| | |lia].
  - split; [|done]. by destruct m.
  - split; [|done]. by destruct m.
Qed.

(** ** What no event ever undoes *)

Section Kept.
Context {A : Type} (R : A → A → Prop).
Context (Hrefl : ∀ x, R x x) (Htrans : ∀ x y z, R x y → R y z → R x z).

Lemma kept_refl (l : list A) : kept R l l.
Proof. intros i x Hx. by exists x. Qed.

Lemma kept_trans (l1 l2 l3 : list A) : kept R l1 l2 → kept R l2 l3 → kept R l1 l3.
Proof.
  intros H12 H23 i x Hx. destruct (H12 i x Hx) as (y & Hy & Hxy).
  destruct (H23 i y Hy) as (z & Hz & Hyz). exists z. split; [done|]. by eapply Htrans.
Qed.

Lemma kept_app (l extra : list A) : kept R l (l ++ extra).
Proof. intros i x Hx. exists x. split; [by apply lookup_app_l_Some|done]. Qed.

Lemma kept_alter (f : A → A) (i : nat) (l : list A) :
  (∀ x, R x (f x)) → kept R l (alter f i l).
Proof.
  intros Hf j x Hx. destruct (decide (i = j)) as [<-|Hne].
  - exists (f x). split; [|done]. by rewrite list_lookup_alter_eq, Hx.
  - exists x. split; [|done]. by rewrite list_lookup_alter_ne.
Qed.

Lemma kept_insert (i : nat) (x y : A) (l : list A) :
  l !! i = Some x → R x y → kept R l (<[i := y]> l).
Proof.
  intros Hx Hxy j z Hz. destruct (decide (i = j)) as [<-|Hne].
  - exists y. rewrite Hx in Hz. injection Hz as <-. split; [|done].
    apply list_lookup_insert_eq. by eapply lookup_lt_Some.
  - exists z. split; [|done]. by rewrite list_lookup_insert_ne.
Qed.

Lemma kept_foldl_alter (f : A → A) (ids : list nat) (l : list A) :
  (∀ x, R x (f x)) → kept R l (foldl (λ acc t, alter f t acc) l ids).
Proof.
  intros Hf. revert l. induction ids as [|a ids IH]; intros l; simpl.
  - apply kept_refl.
  - eapply kept_trans; [by apply kept_alter|apply IH].
Qed.
End Kept.

Lemma track_kept_refl (trk : MediaStreamTrack) : track_kept trk trk.
Proof. by split. Qed.

Lemma track_kept_trans (x y z : MediaStreamTrack) :
  track_kept x y → track_kept y z → track_kept x z.
Proof. intros [Hk1 Hr1] [Hk2 Hr2]. split; [congruence|auto]. Qed.

Lemma connection_kept_refl (c : RTCPeerConnection) : connection_kept c c.
Proof. by split. Qed.

Lemma connection_kept_trans (x y z : RTCPeerConnection) :
  connection_kept x y → connection_kept y z → connection_kept x z.
Proof. intros [Hl1 Hc1] [Hl2 Hc2]. split; [congruence|auto]. Qed.

Lemma store_kept_refl (b : Browser) : store_kept b b.
Proof.
  split; [apply kept_refl, track_kept_refl|].
  split; [apply kept_refl, connection_kept_refl|done].
Qed.

Lemma store_kept_trans (b1 b2 b3 : Browser) :
  store_kept b1 b2 → store_kept b2 b3 → store_kept b1 b3.
Proof.
  intros (Ht1 & Hc1 & Hl1) (Ht2 & Hc2 & Hl2).
  split; [by eapply kept_trans; [apply track_kept_trans|..]|].
  split; [by eapply kept_trans; [apply connection_kept_trans|..]|].
  by etrans.
Qed.

Lemma store_calm_refl (b : Browser) : store_calm b b.
Proof. split; [apply store_kept_refl|by apply kept_refl]. Qed.

Lemma store_calm_trans (b1 b2 b3 : Browser) :
  store_calm b1 b2 → store_calm b2 b3 → store_calm b1 b3.
Proof.
  intros [Hk1 Ho1] [Hk2 Ho2]. split; [by eapply store_kept_trans|].
  eapply kept_trans; [|done..]. intros x y z. simpl. congruence.
Qed.

(** The pieces the handlers are made of. *)
Lemma set_tracks_calm (l : list MediaStreamTrack) (b : Browser) :
  kept track_kept (tracks b) l → store_calm b (set_tracks l b).
Proof.
  intros Hl. split; [split; [done|]; split; [apply kept_refl, connection_kept_refl|done]|].
  by apply kept_refl.
Qed.

Lemma console_write_calm (e : LogEntry) (b : Browser) : store_calm b (console_write e b).
Proof.
  split; [|by apply kept_refl].
  split; [apply kept_refl, track_kept_refl|].
  split; [apply kept_refl, connection_kept_refl|]. simpl. by apply prefix_app_r.
Qed.

Lemma replace_in_closed (b : Browser) (t : option nat) (c : RTCPeerConnection) :
  closed (replace_in b t c) = closed c ∧
  length (senders (replace_in b t c)) = length (senders c).
Proof.
  unfold replace_in. destruct (find_index _ _); simpl; [|done].
  by rewrite length_alter.
Qed.

Lemma for_each_replace_video_calm (t : option nat) (ids : list nat) (b : Browser) :
  store_calm b (for_each (replace_video t) ids b).
Proof.
  rewrite for_each_replace_video. split.
  - split; [apply kept_refl, track_kept_refl|]. split; [|done]. simpl.
    apply kept_foldl_alter;
      [apply connection_kept_refl|apply connection_kept_trans|].
    intros c. destruct (replace_in_closed b t c) as [Hc Hl]. split; [done|by rewrite Hc].
  - simpl. apply kept_foldl_alter; [done|intros x y z; simpl; congruence|].
    intros c. apply replace_in_closed.
Qed.

Lemma for_each_restore_video_calm (cameraTrack : option nat) (ids : list nat) (b : Browser) :
  store_calm b (for_each (restore_video cameraTrack) ids b).
Proof.
  destruct cameraTrack as [t|].
  - apply for_each_replace_video_calm.
  - unfold for_each. simpl. induction ids as [|a ids IH]; simpl; [apply store_calm_refl|done].
Qed.

Lemma toggleAudio_calm (p : Page) :
  store_calm (browser p) (browser (toggleAudio p)) ∧
  peerConnections (call (toggleAudio p)) = peerConnections (call p).
Proof.
  destruct (toggleAudio_cases p) as [->|(stream & t & trk & Hs & Hh & Hl & _)].
  - split; [apply store_calm_refl|done].
  - rewrite (toggleAudio_flip p stream t trk) by done. simpl. split; [|done].
    apply set_tracks_calm.
    by eapply kept_insert; [apply track_kept_refl|done|].
Qed.

Lemma toggleVideo_calm (p : Page) :
  store_calm (browser p) (browser (toggleVideo p)) ∧
  peerConnections (call (toggleVideo p)) = peerConnections (call p).
Proof.
  destruct (toggleVideo_cases p) as [->|(stream & t & trk & Hs & Hh & Hl & _)].
  - split; [apply store_calm_refl|done].
  - rewrite (toggleVideo_flip p stream t trk) by done. simpl. split; [|done].
    apply set_tracks_calm.
    by eapply kept_insert; [apply track_kept_refl|done|].
Qed.

Lemma screen_onended_calm (ls : option MediaStream) (p : Page) :
  store_calm (browser p) (browser (screen_onended ls p)) ∧
  peerConnections (call (screen_onended ls p)) = peerConnections (call p).
Proof.
  unfold screen_onended. destruct ls as [stream|]; simpl.
  - split; [apply for_each_restore_video_calm|done].
  - split; [apply store_calm_refl|done].
Qed.

Lemma startScreenShare_fulfilled_calm (ls : option MediaStream) (s : MediaStream) (p : Page) :
  store_calm (browser p) (browser (startScreenShare_fulfilled ls s p)) ∧
  peerConnections (call (startScreenShare_fulfilled ls s p)) = peerConnections (call p).
Proof.
  unfold startScreenShare_fulfilled.
  destruct (head (getVideoTracks (browser p) s)) as [t|]; simpl; (split; [|done]).
  - eapply store_calm_trans; [apply for_each_replace_video_calm|].
    apply set_tracks_calm. simpl.
    apply kept_alter; [apply track_kept_refl|by intros trk].
  - eapply store_calm_trans; [apply for_each_replace_video_calm|].
    apply console_write_calm.
Qed.

Lemma new_tracks_calm (kinds : list TrackKind) (b : Browser) :
  store_calm b (new_tracks kinds b).2.
Proof. apply set_tracks_calm. apply kept_app, track_kept_refl. Qed.

(** The assignment to the map object leaves the browser's objects alone. *)
Lemma assign_browser (key : string) (pc : nat) (p : Page) :
  browser (completed (assign key pc p)) = browser p.
Proof. by destruct (assign_cases key pc p) as [[_ ->]|[->|(_ & _ & ->)]]. Qed.

Lemma connect_calm (props : Props) (stream : MediaStream)
    (acc : Completion) (a : CallParticipant) :
  store_calm (browser (completed acc)) (browser (completed (connect props stream acc a))).
Proof.
  destruct acc as [p|error p]; simpl; [|apply store_calm_refl].
  destruct (is_remote props a); [|apply store_calm_refl].
  unfold createPeerConnection. rewrite assign_browser. simpl.
  split; [split; [apply kept_refl, track_kept_refl|]; split; [|done]|];
    simpl; apply kept_app; [apply connection_kept_refl|done].
Qed.

Lemma connect_all_calm (props : Props) (stream : MediaStream)
    (l : list CallParticipant) (acc : Completion) :
  store_calm (browser (completed acc))
             (browser (completed (foldl (connect props stream) acc l))).
Proof.
  revert acc. induction l as [|a l IH]; intros acc; simpl; [apply store_calm_refl|].
  eapply store_calm_trans; [apply connect_calm|apply IH].
Qed.

Lemma initializeMedia_fulfilled_calm (props : Props) (stream : MediaStream) (p : Page) :
  store_calm (browser p) (browser (initializeMedia_fulfilled props stream p)).
Proof.
  unfold initializeMedia_fulfilled.
  pose proof (connect_all_calm props stream (participants props)
                (Normal (on_call (setLocalStream (Some stream)) p))) as Hloop.
  destruct (foldl _ _ _) as [q|error q]; simpl in *; [done|].
  eapply store_calm_trans; [apply Hloop|apply console_write_calm].
Qed.

Lemma cleanup_kept (ls : option MediaStream) (p : Page) :
  store_kept (browser p) (browser (cleanup ls p)).
Proof.
  rewrite cleanup_unfold. simpl. split; [|split; [|done]].
  - apply kept_foldl_alter; [apply track_kept_refl|apply track_kept_trans|].
    by intros trk.
  - apply kept_foldl_alter; [apply connection_kept_refl|apply connection_kept_trans|].
    by intros c.
Qed.

(** One event: the store is kept; and unless the event is the unmount or
    the arrival of the media, it is calm and the map is as it was. *)
Lemma step_kept (props : Props) (p : Page) (e : Event) :
  store_kept (browser p) (browser (step props p e)) ∧
  (e ≠ Unmount → store_calm (browser p) (browser (step props p e))) ∧
  (e ≠ Unmount → e ≠ UserMediaFulfilled →
   peerConnections (call (step props p e)) = peerConnections (call p)).
Proof.
  assert (Hcalm : ∀ q : Page,
            store_calm (browser p) (browser q) ∧
            peerConnections (call q) = peerConnections (call p) →
            store_kept (browser p) (browser q) ∧
            (e ≠ Unmount → store_calm (browser p) (browser q)) ∧
            (e ≠ Unmount → e ≠ UserMediaFulfilled →
             peerConnections (call q) = peerConnections (call p))).
  { intros q [Hq Hm]. split; [apply Hq|]. by split. }
  assert (Hsame : store_calm (browser p) (browser p) ∧
                  peerConnections (call p) = peerConnections (call p))
    by (split; [apply store_calm_refl|done]).
  destruct e; simpl.
  - apply Hcalm. by destruct (mounted (pending p)).
  - destruct (userMedia (pending p)); [|by apply Hcalm].
    assert (Hstore : store_calm (browser p)
              (browser (initializeMedia_fulfilled props
                 (seq (length (tracks (browser p))) (length (constraints props)))
                 (mkPage (call p)
                    (set_tracks (tracks (browser p) ++
                       map (λ k, mkTrack k true live None) (constraints props)) (browser p))
                    (mkPending (mounted (pending p)) false (displayMedia (pending p))))))).
    { eapply store_calm_trans; [|apply initializeMedia_fulfilled_calm]. simpl.
      apply (new_tracks_calm (constraints props) (browser p)). }
    split; [apply Hstore|]. split; [done|]. by intros _ [].
  - apply Hcalm. destruct (userMedia (pending p)); [|done]. simpl.
    split; [apply console_write_calm|done].
  - apply Hcalm. destruct (mounted (pending p)); [apply toggleAudio_calm|done].
  - apply Hcalm.
    destruct (mounted (pending p) && bool_decide (callType props = videoCall));
      [apply toggleVideo_calm|done].
  - apply Hcalm. by destruct (mounted (pending p) && negb (isScreenSharing (call p))).
  - apply Hcalm. by destruct (mounted (pending p)).
  - apply Hcalm. by destruct (mounted (pending p)).
  - apply Hcalm. destruct (displayMedia (pending p)) as [|captured rest]; [done|].
    match goal with |- context [startScreenShare_fulfilled ?a ?s ?q] =>
      destruct (startScreenShare_fulfilled_calm a s q) as [Hs Hm] end.
    split; [|done]. eapply store_calm_trans; [|apply Hs]. simpl.
    apply (new_tracks_calm (if withAudio then [video; audio] else [video]) (browser p)).
  - apply Hcalm. destruct (displayMedia (pending p)) as [|captured rest]; [done|]. simpl.
    split; [apply console_write_calm|done].
  - apply Hcalm. destruct (tracks (browser p) !! t) as [trk|] eqn:Ht; [|done].
    destruct (readyState trk); [|done].
    assert (Hend : store_calm (browser p)
              (set_tracks (alter (set_readyState ended) t (tracks (browser p))) (browser p))).
    { apply set_tracks_calm. apply kept_alter; [apply track_kept_refl|by intros x]. }
    destruct (onended trk) as [captured|]; [|by split].
    match goal with |- context [screen_onended ?a ?q] =>
      destruct (screen_onended_calm a q) as [Hs Hm] end.
    split; [|done]. eapply store_calm_trans; [apply Hend|apply Hs].
  - apply Hcalm. destruct (connections (browser p) !! pc) as [c|]; [|done].
    destruct (closed c); [done|]. destruct candidate; [|done]. simpl.
    split; [apply console_write_calm|done].
  - by apply Hcalm.
  - destruct (mounted (pending p)); [|by apply Hcalm].
    split; [|by split]. exact (cleanup_kept first_render_localStream p).
Qed.


(** ** The peer-connection map stays sound *)

Lemma map_sound_calm (p q : Page) :
  map_sound p →
  store_calm (browser p) (browser q) →
  peerConnections (call q) = peerConnections (call p) →
  map_sound q.
Proof.
  intros [Hopen Hinj] [_ Hclosed] Hmap. unfold map_sound. rewrite Hmap. split; [|done].
  intros k pc Hk. destruct (Hopen k pc Hk) as (c & Hc & Hcl).
  destruct (Hclosed pc c Hc) as (c' & Hc' & Hcl'). exists c'. split; [done|]. congruence.
Qed.

Lemma createPeerConnection_own_sound (participantId : string) (stream : MediaStream)
    (p : Page) :
  map_sound p → map_sound (createPeerConnection_own participantId stream p).
Proof.
  intros [Hopen Hinj]. split; simpl.
  - intros k pc. rewrite lookup_insert. case_decide as Hk.
    + intros [= <-]. exists (new_connection stream). split; [|done].
      by rewrite lookup_app_r, Nat.sub_diag.
    + intros Hpc. destruct (Hopen k pc Hpc) as (c & Hc & Hcl).
      exists c. split; [by apply lookup_app_l_Some|done].
  - intros k1 k2 pc. rewrite !lookup_insert.
    case_decide as H1; case_decide as H2; subst; try done.
    + intros [= <-] Hpc. destruct (Hopen k2 _ Hpc) as (c & Hc & _).
      apply lookup_lt_Some in Hc. lia.
    + intros Hpc [= <-]. destruct (Hopen k1 _ Hpc) as (c & Hc & _).
      apply lookup_lt_Some in Hc. lia.
    + apply Hinj.
Qed.

(** A connection that is made and not stored leaves the map sound. *)
Lemma new_connection_sound (stream : MediaStream) (p : Page) :
  map_sound p →
  map_sound (on_browser (λ b, set_connections (connections b ++ [new_connection stream]) b) p).
Proof.
  intros Hp. apply (map_sound_calm p); [done| |done]. simpl.
  split; [split; [apply kept_refl, track_kept_refl|]; split; [|done]|];
    simpl; apply kept_app; [apply connection_kept_refl|done].
Qed.

Lemma createPeerConnection_sound (participantId : string) (stream : MediaStream) (p : Page) :
  map_sound p → map_sound (completed (createPeerConnection participantId stream p)).
Proof.
  intros Hp. unfold createPeerConnection.
  match goal with |- context [assign ?k ?pc ?q] =>
    destruct (assign_cases k pc q) as [[_ ->]|[->|(_ & _ & ->)]] end; simpl.
  - by apply (new_connection_sound stream p).
  - by apply (createPeerConnection_own_sound participantId stream p).
  - by apply (new_connection_sound stream p).
Qed.

Lemma connect_all_sound (props : Props) (stream : MediaStream)
    (l : list CallParticipant) (acc : Completion) :
  map_sound (completed acc) → map_sound (completed (foldl (connect props stream) acc l)).
Proof.
  revert acc. induction l as [|a l IH]; intros acc Hp; simpl; [done|].
  apply IH. destruct acc as [p|error p]; simpl in *; [|done].
  destruct (is_remote props a); [|done].
  by apply createPeerConnection_sound.
Qed.

Lemma initializeMedia_fulfilled_sound (props : Props) (stream : MediaStream) (p : Page) :
  map_sound p → map_sound (initializeMedia_fulfilled props stream p).
Proof.
  intros Hp. unfold initializeMedia_fulfilled.
  pose proof (connect_all_sound props stream (participants props)
                (Normal (on_call (setLocalStream (Some stream)) p)) Hp) as Hloop.
  destruct (foldl _ _ _) as [q|error q]; simpl in *; [done|].
  apply (map_sound_calm q); [done|apply console_write_calm|done].
Qed.

Lemma step_sound (props : Props) (p : Page) (e : Event) :
  map_sound p → map_sound (step props p e).
Proof.
  intros Hp.
  assert (Hcalm : ∀ e', e' ≠ Unmount → e' ≠ UserMediaFulfilled →
                        map_sound (step props p e')).
  { intros e' Hu Hm. destruct (step_kept props p e') as (_ & Hcalm & Hmap).
    apply (map_sound_calm p); [done|by apply Hcalm|by apply Hmap]. }
  destruct e; try (apply Hcalm; discriminate).
  - simpl. destruct (userMedia (pending p)); [|done].
    apply initializeMedia_fulfilled_sound.
    apply (map_sound_calm p); [done| |done]. simpl.
    apply (new_tracks_calm (constraints props) (browser p)).
  - simpl. destruct (mounted (pending p)); [|done].
    unfold unmount. rewrite cleanup_unfold. by split.
Qed.

Lemma map_sound_NoDup (p : Page) :
  map_sound p → NoDup (values (peerConnections (call p))).
Proof.
  intros [_ Hinj]. unfold values.
  apply NoDup_fmap_2_strong; [|apply NoDup_map_to_list].
  intros [k1 pc1] [k2 pc2] H1%elem_of_map_to_list H2%elem_of_map_to_list. simpl.
  intros <-. f_equal. by eapply Hinj.
Qed.

Lemma run_sound (props : Props) (events : list Event) (p : Page) :
  map_sound p → map_sound (run props p events).
Proof.
  revert p. induction events as [|e events IH]; intros p Hp; simpl; [done|].
  apply IH. by apply step_sound.
Qed.

Lemma mount_sound (props : Props) (now : Z) (b : Browser) : map_sound (mount props now b).
Proof. split; simpl; intros *; by rewrite lookup_empty. Qed.

(** X13. On every page the component can reach after it was mounted, each
    entry of the peer-connection map names a connection that exists and is
    open, and no connection is named by two participants. *)
Theorem map_sound_run (props : Props) (now : Z) (b : Browser) (events : list Event) :
  let p := run props (mount props now b) events in
  map_sound p ∧ NoDup (values (peerConnections (call p))).
Proof.
  assert (Hsound : map_sound (run props (mount props now b) events))
    by apply run_sound, mount_sound.
  split; [done|by apply map_sound_NoDup].
Qed.

(** ** Sharing the screen and getting the camera back *)

Lemma find_index_ext {A} (f g : A → bool) (l : list A) :
  (∀ x, f x = g x) → find_index f l = find_index g l.
Proof. intros Hfg. induction l as [|a l IH]; simpl; [done|]. by rewrite Hfg, IH. Qed.

Lemma find_index_alter {A} (f : A → bool) (g : A → A) (l : list A) (i : nat) :
  find_index f l = Some i → (∀ x, f (g x) = true) →
  find_index f (alter g i l) = Some i.
Proof.
  intros Hi Hg. revert i Hi. induction l as [|a l IH]; intros i; simpl; [done|].
  destruct (f a) eqn:Hfa.
  - intros [= <-]. change (alter g 0 (a :: l)) with (g a :: l). simpl. by rewrite Hg.
  - destruct (find_index f l) as [k|] eqn:Hk; simpl; [|done].
    intros [= <-]. change (alter g (S k) (a :: l)) with (a :: alter g k l).
    simpl. by rewrite Hfa, (IH k).
Qed.

Lemma is_video_sender_fmap (b b' : Browser) (s : RTCRtpSender) :
  kind <$> tracks b' = kind <$> tracks b → is_video_sender b' s = is_video_sender b s.
Proof. intros Hk. unfold is_video_sender. destruct (track s); [by apply has_kind_fmap|done]. Qed.

Lemma replace_in_fmap (b b' : Browser) (t : option nat) (c : RTCPeerConnection) :
  kind <$> tracks b' = kind <$> tracks b → replace_in b' t c = replace_in b t c.
Proof.
  intros Hk. unfold replace_in.
  by rewrite (find_index_ext (is_video_sender b') (is_video_sender b))
    by (intros s; by apply is_video_sender_fmap).
Qed.

Lemma fmap_alter_same {A B} (f : A → B) (g : A → A) (i : nat) (l : list A) :
  (∀ x, f (g x) = f x) → f <$> alter g i l = f <$> l.
Proof.
  intros Hfg. apply list_eq. intros j. rewrite !list_lookup_fmap.
  destruct (decide (i = j)) as [<-|Hne].
  - rewrite list_lookup_alter_eq. destruct (l !! i); simpl; by rewrite ?Hfg.
  - by rewrite list_lookup_alter_ne.
Qed.

Lemma head_getVideoTracks_kind (b : Browser) (stream : MediaStream) (t : nat) :
  head (getVideoTracks b stream) = Some t → has_kind b video t = true.
Proof.
  intros Ht. destruct (head_filter_has_kind b video stream t Ht) as (trk & Hl & Hk).
  unfold has_kind. rewrite Hl. by apply bool_decide_eq_true.
Qed.

(** The page after [startScreenShare] went through with a screen stream
    whose first video track is [screen]. *)
Lemma startScreenShare_fulfilled_unfold
    (captured : option MediaStream) (screenStream : MediaStream) (screen : nat) (p : Page) :
  head (getVideoTracks (browser p) screenStream) = Some screen →
  startScreenShare_fulfilled captured screenStream p =
    mkPage
      (setIsScreenSharing true (call p))
      (mkBrowser
         (alter (set_onended (Some captured)) screen (tracks (browser p)))
         (foldl (λ acc pc, alter (replace_in (browser p) (Some screen)) pc acc)
                (connections (browser p)) (values (peerConnections (call p))))
         (console (browser p))
         (pcAttributes (browser p)))
      (pending p).
Proof.
  intros Hscreen. unfold startScreenShare_fulfilled. rewrite Hscreen.
  unfold on_browser, on_call. simpl. by rewrite for_each_replace_video.
Qed.

(** X14. When [startScreenShare] goes through on a page whose map is sound
    (as it is on every page a run reaches), every participant's connection
    gets the screen track on its first video sender by one [replaceTrack]
    call; senders without a video track, so all audio senders, are the
    senders they were, and a connection without a video sender (an audio
    call) is untouched, as is every connection outside the map. No track is
    enabled, disabled or stopped, and the screen-share state is set. *)
Theorem startScreenShare_replaces_video
    (captured : option MediaStream) (screenStream : MediaStream) (screen : nat) (p : Page)
    (Hsound : map_sound p)
    (Hscreen : head (getVideoTracks (browser p) screenStream) = Some screen) :
  let p' := startScreenShare_fulfilled captured screenStream p in
  isScreenSharing (call p') = true ∧
  enabled <$> tracks (browser p') = enabled <$> tracks (browser p) ∧
  readyState <$> tracks (browser p') = readyState <$> tracks (browser p) ∧
  (∀ pc, pc ∉ values (peerConnections (call p)) →
         connections (browser p') !! pc = connections (browser p) !! pc) ∧
  (∀ k pc c,
     peerConnections (call p) !! k = Some pc →
     connections (browser p) !! pc = Some c →
     ∃ c', connections (browser p') !! pc = Some c' ∧
           (∀ j s, senders c !! j = Some s → is_video_sender (browser p) s = false →
                   senders c' !! j = Some s) ∧
           match find_index (is_video_sender (browser p)) (senders c) with
           | Some i =>
               ∃ s, senders c !! i = Some s ∧
                    senders c' =
                      <[i := mkSender (Some screen) (Some screen :: replaced s)]> (senders c)
           | None => c' = c
           end).
Proof.
  cbv zeta. rewrite (startScreenShare_fulfilled_unfold _ _ screen) by done. simpl.
  pose proof (map_sound_NoDup p Hsound) as Hnd.
  split; [done|].
  split; [by apply fmap_alter_same|]. split; [by apply fmap_alter_same|].
  split.
  - intros pc Hpc. by rewrite lookup_foldl_alter_NoDup, decide_False by done.
  - intros k pc c Hk Hc. exists (replace_in (browser p) (Some screen) c).
    assert (Hin : pc ∈ values (peerConnections (call p))).
    { unfold values. apply list_elem_of_fmap. exists (k, pc).
      split; [done|by apply elem_of_map_to_list]. }
    rewrite lookup_foldl_alter_NoDup, decide_True, Hc by done.
    split; [done|].
    destruct Hsound as [Hopen _]. destruct (Hopen k pc Hk) as (c0 & Hc0 & Hcl).
    rewrite Hc in Hc0. injection Hc0 as <-.
    destruct (replace_in_senders (browser p) (Some screen) c) as (_ & Hframe & Hfirst).
    split; [done|]. unfold getSenders in Hfirst. by rewrite Hcl in Hfirst.
Qed.

Lemma startScreenShare_replaces_video_witness :
  let p' := startScreenShare_fulfilled (Some [0; 1]) [2]
              (on_browser (λ b, (new_tracks [video] b).2) active_video_call) in
  isScreenSharing (call p') = true ∧
  readyState <$> tracks (browser p') = [live; live; live] ∧
  senders <$> connections (browser p') !! 0 =
    Some [mkSender (Some 0) []; mkSender (Some 2) [Some 2]].
Proof.
  set (p := on_browser (λ b, (new_tracks [video] b).2) active_video_call).
  assert (Hsound : map_sound p).
  { apply (map_sound_calm active_video_call);
      [exact (run_sound video_props [UserMediaFulfilled] _ (mount_sound video_props 0%Z blank))
      |apply (new_tracks_calm [video])|reflexivity]. }
  destruct (startScreenShare_replaces_video (Some [0; 1]) [2] 2 p Hsound eq_refl)
    as (Hshare & _ & Hready & _ & Hconn).
  destruct (Hconn "2" 0 _ eq_refl eq_refl) as (c' & Hc' & _ & (s & Hs & Hsenders)).
  split; [exact Hshare|]. split; [exact Hready|].
  rewrite Hc'. simpl. rewrite Hsenders. simpl in Hs. injection Hs as <-. reflexivity.
Defined.

(** A sender list after the screen went onto its first video sender and
    the camera came back. *)
Lemma replace_in_back (b b' : Browser) (camera screen : nat) (c : RTCPeerConnection) :
  kind <$> tracks b' = kind <$> tracks b →
  has_kind b video screen = true →
  (∀ i, find_index (is_video_sender b) (getSenders c) = Some i →
        track <$> senders c !! i = Some (Some camera)) →
  track <$> senders (replace_in b' (Some camera) (replace_in b (Some screen) c)) =
    track <$> senders c ∧
  closed (replace_in b' (Some camera) (replace_in b (Some screen) c)) = closed c.
Proof.
  intros Hk Hscreen Hcamera. rewrite (replace_in_fmap b b') by done.
  unfold replace_in at 2 4.
  destruct (find_index (is_video_sender b) (getSenders c)) as [i|] eqn:Hi.
  - destruct (find_index_Some _ _ _ Hi) as (s & Hs & _).
    unfold getSenders in Hi, Hs. destruct (closed c) eqn:Hcl; [done|].
    unfold replace_in, getSenders. simpl. rewrite Hcl.
    rewrite (find_index_alter _ _ _ i Hi) by (by intros x). simpl.
    split; [|done]. apply list_eq. intros j. rewrite !list_lookup_fmap.
    destruct (decide (i = j)) as [<-|Hne].
    + rewrite !list_lookup_alter_eq, Hs. simpl.
      specialize (Hcamera i eq_refl). rewrite Hs in Hcamera. simpl in Hcamera.
      by injection Hcamera as ->.
    + by rewrite !list_lookup_alter_ne.
  - unfold replace_in. by rewrite Hi.
Qed.

(** X15. Share, then the share ends. When the share was started from a
    render that holds the local stream, on a page whose map is sound and
    whose connections send the camera on their first video sender, the end
    of the screen track leaves every connection sending exactly the tracks
    it sent before the share, open or closed as it was, with the
    screen-share state cleared. *)
Theorem screen_share_round_trip
    (stream screenStream : MediaStream) (camera screen : nat) (p : Page)
    (Hsound : map_sound p)
    (Hcamera : head (getVideoTracks (browser p) stream) = Some camera)
    (Hscreen : head (getVideoTracks (browser p) screenStream) = Some screen)
    (Hsends : ∀ k pc c i,
       peerConnections (call p) !! k = Some pc →
       connections (browser p) !! pc = Some c →
       find_index (is_video_sender (browser p)) (senders c) = Some i →
       track <$> senders c !! i = Some (Some camera)) :
  let shared := startScreenShare_fulfilled (Some stream) screenStream p in
  let finished := screen_onended (Some stream) shared in
  isScreenSharing (call shared) = true ∧
  isScreenSharing (call finished) = false ∧
  ∀ pc c, connections (browser p) !! pc = Some c →
    ∃ c', connections (browser finished) !! pc = Some c' ∧
          track <$> senders c' = track <$> senders c ∧
          closed c' = closed c.
Proof.
  cbv zeta. rewrite (startScreenShare_fulfilled_unfold _ _ screen) by done.
  pose proof (map_sound_NoDup p Hsound) as Hnd.
  set (b1 := mkBrowser
               (alter (set_onended (Some (Some stream))) screen (tracks (browser p)))
               (foldl (λ acc pc, alter (replace_in (browser p) (Some screen)) pc acc)
                      (connections (browser p)) (values (peerConnections (call p))))
               (console (browser p))
               (pcAttributes (browser p))).
  assert (Hk : kind <$> tracks b1 = kind <$> tracks (browser p))
    by (by apply fmap_alter_same).
  unfold screen_onended. simpl. fold b1.
  assert (Hcam1 : head (getVideoTracks b1 stream) = Some camera).
  { unfold getVideoTracks in *. by rewrite (filter_has_kind_fmap (browser p) b1). }
  rewrite Hcam1.
  change (restore_video (Some camera)) with (replace_video (Some camera)).
  rewrite for_each_replace_video. simpl.
  split; [done|]. split; [done|].
  intros pc c Hc. rewrite !lookup_foldl_alter_NoDup by done.
  destruct (decide (pc ∈ values (peerConnections (call p)))) as [Hin|Hnotin].
  - rewrite Hc. simpl. eexists. split; [done|].
    apply replace_in_back; [done|by eapply head_getVideoTracks_kind|].
    intros i Hi. unfold values in Hin.
    apply list_elem_of_fmap in Hin as ([k pc'] & -> & Hkpc%elem_of_map_to_list).
    destruct (find_index_Some _ _ _ Hi) as (s & Hs & _).
    unfold getSenders in Hi, Hs. destruct (closed c); [done|].
    by apply (Hsends k pc' c i).
  - by exists c.
Qed.

Lemma screen_share_round_trip_witness :
  let p := on_browser (λ b, (new_tracks [video] b).2) active_video_call in
  let finished :=
    screen_onended (Some [0; 1]) (startScreenShare_fulfilled (Some [0; 1]) [2] p) in
  isScreenSharing (call finished) = false ∧
  ∃ c', connections (browser finished) !! 1 = Some c' ∧
        track <$> senders c' = [Some 0; Some 1] ∧ closed c' = false.
Proof.
  set (p := on_browser (λ b, (new_tracks [video] b).2) active_video_call).
  assert (Hsound : map_sound p).
  { apply (map_sound_calm active_video_call);
      [exact (run_sound video_props [UserMediaFulfilled] _ (mount_sound video_props 0%Z blank))
      |apply (new_tracks_calm [video])|reflexivity]. }
  assert (Hsends : ∀ k pc c i,
            peerConnections (call p) !! k = Some pc →
            connections (browser p) !! pc = Some c →
            find_index (is_video_sender (browser p)) (senders c) = Some i →
            track <$> senders c !! i = Some (Some 1)).
  { intros k pc c i _ Hc. destruct pc as [|[|pc]]; [| |done];
      simpl in Hc; injection Hc as <-; simpl; by intros [= <-]. }
  destruct (screen_share_round_trip [0; 1] [2] 1 2 p Hsound eq_refl eq_refl Hsends)
    as (_ & Hdone & Hconn).
  split; [exact Hdone|]. exact (Hconn 1 _ eq_refl).
Defined.

(** ** Ending the call closes every connection *)

Lemma length_foldl_alter {A} (f : A → A) (ids : list nat) (l : list A) :
  length (foldl (λ acc t, alter f t acc) l ids) = length l.
Proof.
  revert l. induction ids as [|a ids IH]; intros l; simpl; [done|].
  by rewrite IH, length_alter.
Qed.

Lemma for_each_restore_video_length (cameraTrack : option nat) (ids : list nat) (b : Browser) :
  length (connections (for_each (restore_video cameraTrack) ids b)) = length (connections b).
Proof.
  destruct cameraTrack as [t|].
  - change (restore_video (Some t)) with (replace_video (Some t)).
    rewrite for_each_replace_video. simpl. apply length_foldl_alter.
  - unfold for_each. simpl. by induction ids as [|a ids IH].
Qed.

Lemma toggleAudio_connections (p : Page) :
  connections (browser (toggleAudio p)) = connections (browser p).
Proof.
  destruct (toggleAudio_cases p) as [->|(stream & t & trk & Hs & Hh & Hl & _)]; [done|].
  by rewrite (toggleAudio_flip p stream t trk).
Qed.

Lemma toggleVideo_connections (p : Page) :
  connections (browser (toggleVideo p)) = connections (browser p).
Proof.
  destruct (toggleVideo_cases p) as [->|(stream & t & trk & Hs & Hh & Hl & _)]; [done|].
  by rewrite (toggleVideo_flip p stream t trk).
Qed.

(** Nothing sets the pending flag of [getUserMedia] again. *)
Lemma step_userMedia (props : Props) (p : Page) (e : Event) :
  userMedia (pending (step props p e)) =
    match e with
    | UserMediaFulfilled | UserMediaRejected _ => false
    | _ => userMedia (pending p)
    end.
Proof.
  destruct e; simpl.
  - by destruct (mounted (pending p)).
  - destruct (userMedia (pending p)) eqn:Hf; [|done].
    match goal with |- context [initializeMedia_fulfilled _ ?s ?q] =>
      destruct (initializeMedia_fulfilled_call props s q) as (_ & _ & _ & ->) end.
    done.
  - by destruct (userMedia (pending p)) eqn:Hf.
  - destruct (mounted (pending p)); [|done].
    by destruct (toggleAudio_clock p) as (_ & _ & ->).
  - destruct (mounted (pending p) && bool_decide (callType props = videoCall)); [|done].
    by destruct (toggleVideo_clock p) as (_ & _ & ->).
  - by destruct (mounted (pending p) && negb (isScreenSharing (call p))).
  - by destruct (mounted (pending p)).
  - by destruct (mounted (pending p)).
  - destruct (displayMedia (pending p)) as [|captured rest]; [done|].
    match goal with |- context [startScreenShare_fulfilled ?a ?s ?q] =>
      destruct (startScreenShare_fulfilled_clock a s q) as (_ & _ & ->) end.
    done.
  - by destruct (displayMedia (pending p)).
  - destruct (tracks (browser p) !! t) as [trk|]; [|done].
    destruct (readyState trk); [|done].
    destruct (onended trk) as [captured|]; [|done].
    match goal with |- context [screen_onended ?a ?q] =>
      destruct (screen_onended_clock a q) as (_ & _ & ->) end.
    done.
  - destruct (connections (browser p) !! pc) as [c|]; [|done].
    destruct (closed c); [done|]. by destruct candidate.
  - done.
  - destruct (mounted (pending p)); [|done].
    unfold unmount. by rewrite cleanup_unfold.
Qed.

(** Only the arrival of the media creates connections. *)
Lemma step_length (props : Props) (p : Page) (e : Event) :
  (e = UserMediaFulfilled → userMedia (pending p) = false) →
  length (connections (browser (step props p e))) = length (connections (browser p)) ∧
  (userMedia (pending (step props p e)) = true → userMedia (pending p) = true).
Proof.
  intros Hsettled. split; [|rewrite step_userMedia; by destruct e].
  destruct e; simpl.
  - by destruct (mounted (pending p)).
  - by rewrite (Hsettled eq_refl).
  - by destruct (userMedia (pending p)).
  - destruct (mounted (pending p)); [|done]. apply (f_equal length), toggleAudio_connections.
  - destruct (mounted (pending p) && bool_decide (callType props = videoCall)); [|done].
    apply (f_equal length), toggleVideo_connections.
  - by destruct (mounted (pending p) && negb (isScreenSharing (call p))).
  - by destruct (mounted (pending p)).
  - by destruct (mounted (pending p)).
  - destruct (displayMedia (pending p)) as [|captured rest]; [done|].
    unfold startScreenShare_fulfilled. simpl.
    match goal with |- context [head ?h] => destruct (head h) end; simpl;
      rewrite for_each_replace_video; simpl; apply length_foldl_alter.
  - by destruct (displayMedia (pending p)).
  - destruct (tracks (browser p) !! t) as [trk|]; [|done].
    destruct (readyState trk); [|done].
    destruct (onended trk) as [captured|]; [|done].
    unfold screen_onended. destruct captured as [stream|]; [|done].
    simpl. by rewrite for_each_restore_video_length.
  - destruct (connections (browser p) !! pc) as [c|]; [|done].
    destruct (closed c); [done|]. by destruct candidate.
  - done.
  - destruct (mounted (pending p)); [|done].
    unfold unmount. rewrite cleanup_unfold. simpl. apply length_foldl_alter.
Qed.

Lemma elem_of_values (m : gmap string nat) (k : string) (pc : nat) :
  m !! k = Some pc → pc ∈ values m.
Proof.
  intros Hk. unfold values. apply list_elem_of_fmap. exists (k, pc).
  split; [done|by apply elem_of_map_to_list].
Qed.

(** [cleanup] leaves every connection closed when none was orphaned. *)
Lemma cleanup_all_closed (ls : option MediaStream) (p : Page) :
  no_orphan p → all_closed (browser (cleanup ls p)).
Proof.
  intros Hp pc c'. rewrite cleanup_unfold. simpl.
  rewrite lookup_foldl_alter by done.
  destruct (connections (browser p) !! pc) as [c|] eqn:Hc; [|by case_decide].
  destruct (Hp pc c Hc) as [Hcl|Hin].
  - case_decide; simpl; intros [= <-]; done.
  - rewrite decide_True by done. simpl. by intros [= <-].
Qed.

(** Closed connections stay closed while no new one is created. *)
Lemma step_all_closed (props : Props) (p : Page) (e : Event) :
  userMedia (pending p) = false →
  all_closed (browser p) →
  all_closed (browser (step props p e)) ∧ userMedia (pending (step props p e)) = false.
Proof.
  intros Hsettled Hp.
  destruct (step_length props p e (λ _, Hsettled)) as [Hlen Hflag].
  destruct (step_kept props p e) as ((_ & Hkept & _) & _).
  split.
  - intros pc c' Hc'.
    destruct (lookup_lt_is_Some_2 (connections (browser p)) pc) as [c Hc].
    { rewrite <- Hlen. by eapply lookup_lt_Some. }
    destruct (Hkept pc c Hc) as (c'' & Hc'' & _ & Hclosed).
    rewrite Hc' in Hc''. injection Hc'' as <-. apply Hclosed. by eapply Hp.
  - destruct (userMedia (pending (step props p e))) eqn:Hf; [|done].
    rewrite (Hflag eq_refl) in Hsettled. done.
Qed.

Lemma run_all_closed (props : Props) (events : list Event) (p : Page) :
  userMedia (pending p) = false →
  all_closed (browser p) →
  all_closed (browser (run props p events)).
Proof.
  revert p. induction events as [|e events IH]; intros p Hsettled Hp; simpl; [done|].
  destruct (step_all_closed props p e Hsettled Hp) as [Hp' Hsettled'].
  by apply IH.
Qed.

(** Only the arrival of the media and the unmount touch the prototype of
    the map object. *)
Lemma step_proto (props : Props) (p : Page) (e : Event) :
  e ≠ Unmount → e ≠ UserMediaFulfilled →
  peerConnectionsProto (call (step props p e)) = peerConnectionsProto (call p).
Proof.
  intros Hu Hm. destruct e; simpl; try done.
  - by destruct (mounted (pending p)).
  - by destruct (userMedia (pending p)).
  - destruct (mounted (pending p)); [|done]. unfold toggleAudio.
    destruct (localStream (call p)) as [stream|]; [|done].
    destruct (getAudioTracks (browser p) stream) as [|t rest]; [done|].
    by destruct (tracks (browser p) !! t).
  - destruct (mounted (pending p) && bool_decide (callType props = videoCall)); [|done].
    unfold toggleVideo.
    destruct (localStream (call p)) as [stream|]; [|done].
    destruct (getVideoTracks (browser p) stream) as [|t rest]; [done|].
    by destruct (tracks (browser p) !! t).
  - by destruct (mounted (pending p) && negb (isScreenSharing (call p))).
  - by destruct (mounted (pending p)).
  - by destruct (mounted (pending p)).
  - destruct (displayMedia (pending p)) as [|captured rest]; [done|].
    unfold startScreenShare_fulfilled.
    by match goal with |- context [head ?h] => destruct (head h) end.
  - by destruct (displayMedia (pending p)).
  - destruct (tracks (browser p) !! t) as [trk|]; [|done].
    destruct (readyState trk); [|done].
    destruct (onended trk) as [captured|]; [|done].
    unfold screen_onended. by destruct captured.
  - destruct (connections (browser p) !! pc) as [c|]; [|done].
    destruct (closed c); [done|]. by destruct candidate.
Qed.

(** With distinct ids in the roster, none of them [__proto__]: the map
    object keeps the prototype of [{}], no connection is ever orphaned, and
    the map is empty as long as [getUserMedia] is pending. *)
Lemma step_no_orphan (props : Props) (p : Page) (e : Event) :
  NoDup (id <$> participants props) →
  "__proto__" ∉ id <$> participants props →
  no_orphan p ∧ peerConnectionsProto (call p) = None ∧
  (userMedia (pending p) = true → peerConnections (call p) = ∅) →
  no_orphan (step props p e) ∧ peerConnectionsProto (call (step props p e)) = None ∧
  (userMedia (pending (step props p e)) = true → peerConnections (call (step props p e)) = ∅).
Proof.
  intros Hroster Hkey (Hp & Hproto & Hempty).
  assert (Hcalm : ∀ e', e' ≠ Unmount → e' ≠ UserMediaFulfilled →
            no_orphan (step props p e') ∧
            peerConnectionsProto (call (step props p e')) = None ∧
            (userMedia (pending (step props p e')) = true →
             peerConnections (call (step props p e')) = ∅)).
  { intros e' Hu Hm.
    destruct (step_length props p e') as [Hlen Hflag]; [done|].
    destruct (step_kept props p e') as (_ & Hcalm & Hmap).
    specialize (Hcalm Hu) as [_ Hclosed]. specialize (Hmap Hu Hm).
    split; [|split].
    - intros pc c' Hc'. rewrite Hmap.
      destruct (lookup_lt_is_Some_2 (connections (browser p)) pc) as [c Hc].
      { rewrite <- Hlen. by eapply lookup_lt_Some. }
      destruct (Hclosed pc c Hc) as (c'' & Hc'' & Heq).
      rewrite Hc' in Hc''. injection Hc'' as <-. rewrite Heq. by eapply Hp.
    - by rewrite step_proto.
    - intros Hf. rewrite Hmap. by apply Hempty, Hflag. }
  destruct e; try (apply Hcalm; discriminate).
  - simpl. destruct (userMedia (pending p)) eqn:Hf; [|split; [done|split; [done|by rewrite Hf]]].
    specialize (Hempty eq_refl).
    set (stream := seq (length (tracks (browser p))) (length (constraints props))).
    set (q := mkPage (call p)
              (set_tracks (tracks (browser p) ++
                 map (λ k, mkTrack k true live None) (constraints props)) (browser p))
              (mkPending (mounted (pending p)) false (displayMedia (pending p)))).
    rewrite (initializeMedia_fulfilled_own props stream q)
      by (done || by apply not_elem_of_filter_ids).
    set (start := on_call (setLocalStream (Some stream)) q).
    split; [|split].
    + intros pc c'. rewrite (connect_all_connections props stream _ start). simpl.
      intros Hc'. destruct (decide (pc < length (connections (browser p)))) as [Hlt|Hge].
      * rewrite lookup_app_l in Hc' by done. left.
        destruct (Hp pc c' Hc') as [Hcl|Hin]; [done|].
        rewrite Hempty, values_empty in Hin. by apply elem_of_nil in Hin.
      * right. rewrite lookup_app_r in Hc' by lia.
        apply list_lookup_fmap_Some in Hc' as (participant & _ & Hi).
        apply (elem_of_values _ (id participant)).
        rewrite (connect_all_lookup props stream _ start _ participant Hroster Hi).
        simpl. f_equal. lia.
    + by rewrite (connect_all_own_proto props stream _ start).
    + intros Hpending. exfalso. revert Hpending.
      fold (connect_own props stream).
      assert (Hpend : pending (foldl (connect_own props stream) start (participants props)) =
                      pending start).
      { clear. generalize start. induction (participants props) as [|a l IH]; intros r; [done|].
        simpl. rewrite IH. unfold connect_own. by destruct (is_remote props a). }
      by rewrite Hpend.
  - simpl. destruct (mounted (pending p)); [|done]. split; [|split].
    + intros pc c' Hc'. left. by eapply (cleanup_all_closed first_render_localStream p).
    + unfold unmount. by rewrite cleanup_unfold.
    + intros _. unfold unmount. by rewrite cleanup_unfold.
Qed.

Lemma run_no_orphan (props : Props) (events : list Event) (p : Page) :
  NoDup (id <$> participants props) →
  "__proto__" ∉ id <$> participants props →
  no_orphan p ∧ peerConnectionsProto (call p) = None ∧
  (userMedia (pending p) = true → peerConnections (call p) = ∅) →
  no_orphan (run props p events).
Proof.
  intros Hroster Hkey. revert p. induction events as [|e events IH]; intros p Hp; simpl.
  - apply Hp.
  - apply IH. by apply step_no_orphan.
Qed.

(** X16. With distinct ids in the roster, none of them [__proto__], and no
    open connection in the browser beforehand: once [getUserMedia] has
    settled, ending the call leaves every peer connection closed, those
    created for the call included, and whatever happens afterwards none is
    open again. *)
Theorem end_closes_every_connection
    (props : Props) (now : Z) (b : Browser) (before after : list Event)
    (Hroster : NoDup (id <$> participants props))
    (Hkey : "__proto__" ∉ id <$> participants props)
    (Hbrowser : all_closed b)
    (Hsettled : userMedia (pending (run props (mount props now b) before)) = false)
    (Hmounted : mounted (pending (run props (mount props now b) before)) = true) :
  all_closed (browser (run props (mount props now b) (before ++ Unmount :: after))).
Proof.
  unfold run. rewrite foldl_app. simpl.
  fold (run props (mount props now b) before).
  set (q := run props (mount props now b) before) in *.
  rewrite Hmounted. fold (run props (unmount q) after).
  apply run_all_closed; [by unfold unmount; rewrite cleanup_unfold|].
  assert (Hq : no_orphan q).
  { apply run_no_orphan; [done|done|]. split; [|done].
    intros pc c Hc. left. by eapply Hbrowser. }
  exact (cleanup_all_closed first_render_localStream q Hq).
Qed.

Lemma end_closes_every_connection_witness :
  all_closed (browser (run video_props (mount video_props 0%Z blank)
                         ([UserMediaFulfilled; ClickScreenShare] ++
                          Unmount :: [DisplayMediaFulfilled false; TimerTick 5000]))).
Proof.
  apply (end_closes_every_connection video_props 0%Z blank
           [UserMediaFulfilled; ClickScreenShare]
           [DisplayMediaFulfilled false; TimerTick 5000]).
  - refine (bool_decide_unpack _ _). vm_compute. exact I.
  - refine (bool_decide_unpack _ _). vm_compute. exact I.
  - intros pc c Hc. by destruct pc.
  - reflexivity.
  - reflexivity.
Defined.
